(** * Lip-sync controller, mouth-shape adapters and renderer registry

    A shallow embedding of [src/services/LipSyncService.ts], of the
    renderer factories and [RendererRegistry] (renderers/) and of the model
    store's format detection, together with the properties stated about
    them.

    Conventions of the embedding.
    - A JavaScript string is the list of its UTF-16 code units.
    - A JavaScript number is an exact rational or one of the three special
      values NaN, +Infinity, -Infinity (module [Num]).  Rounding of
      binary64 and the sign of zero are abstracted: arithmetic on finite
      values is exact and zero is unsigned (a division by zero behaves as
      a division by +0).
    - Calls made on a [LipSyncTarget] are recorded in a log carried by the
      state; [Date.now()], [performance.now()], the timestamp handed to an
      animation callback and the draws of [Math.random()] are explicit
      arguments. *)

From Stdlib Require Import ZArith QArith Qcanon Qround Bool String Ascii Lia.
From Stdlib Require Import Lqa.
From stdpp Require Import base list gmap.

Local Open Scope Z_scope.

(* ===================================================================== *)
(** ** JavaScript numbers *)
(* ===================================================================== *)

Module Num.

Inductive num : Type :=
| NaN
| PInf
| NInf
| Fin (q : Qc).

Definition ofQ (q : Q) : num := Fin (Q2Qc q).
Definition ofZ (z : Z) : num := ofQ (inject_Z z).
Definition ofNat (n : nat) : num := ofZ (Z.of_nat n).

Definition qsign (q : Qc) : comparison := (q ?= Q2Qc 0)%Qc.

Definition neg (a : num) : num :=
  match a with
  | NaN => NaN
  | PInf => NInf
  | NInf => PInf
  | Fin q => Fin (- q)%Qc
  end.

Definition add (a b : num) : num :=
  match a, b with
  | NaN, _ | _, NaN => NaN
  | PInf, NInf | NInf, PInf => NaN
  | PInf, _ | _, PInf => PInf
  | NInf, _ | _, NInf => NInf
  | Fin p, Fin q => Fin (p + q)%Qc
  end.

Definition sub (a b : num) : num := add a (neg b).

(** The infinity carrying the sign [c]; a zero factor gives NaN. *)
Definition inf_of_sign (c : comparison) : num :=
  match c with
  | Gt => PInf
  | Lt => NInf
  | Eq => NaN
  end.

Definition mul (a b : num) : num :=
  match a, b with
  | NaN, _ | _, NaN => NaN
  | PInf, PInf | NInf, NInf => PInf
  | PInf, NInf | NInf, PInf => NInf
  | PInf, Fin q | Fin q, PInf => inf_of_sign (qsign q)
  | NInf, Fin q | Fin q, NInf => inf_of_sign (CompOpp (qsign q))
  | Fin p, Fin q => Fin (p * q)%Qc
  end.

Definition div (a b : num) : num :=
  match a, b with
  | NaN, _ | _, NaN => NaN
  | (PInf | NInf), (PInf | NInf) => NaN
  | PInf, Fin q => match qsign q with Lt => NInf | _ => PInf end
  | NInf, Fin q => match qsign q with Lt => PInf | _ => NInf end
  | Fin _, (PInf | NInf) => Fin (Q2Qc 0)
  | Fin p, Fin q =>
      match qsign q with
      | Eq => inf_of_sign (qsign p)
      | _ => Fin (p / q)%Qc
      end
  end.

(** [a < b]; every comparison with NaN is false. *)
Definition ltb (a b : num) : bool :=
  match a, b with
  | NaN, _ | _, NaN => false
  | _, NInf => false
  | NInf, _ => true
  | PInf, _ => false
  | Fin _, PInf => true
  | Fin p, Fin q => match (p ?= q)%Qc with Lt => true | _ => false end
  end.

Definition gtb (a b : num) : bool := ltb b a.

(** [a <= b]. *)
Definition leb (a b : num) : bool :=
  match a, b with
  | NaN, _ | _, NaN => false
  | NInf, _ => true
  | _, PInf => true
  | _, NInf => false
  | PInf, _ => false
  | Fin p, Fin q => match (p ?= q)%Qc with Gt => false | _ => true end
  end.

(** [Math.max] and [Math.min] of two arguments: NaN if either is NaN. *)
Definition Math_max (a b : num) : num :=
  match a, b with
  | NaN, _ | _, NaN => NaN
  | _, _ => if ltb a b then b else a
  end.

Definition Math_min (a b : num) : num :=
  match a, b with
  | NaN, _ | _, NaN => NaN
  | _, _ => if ltb b a then b else a
  end.

(** [Math.floor]. *)
Definition Math_floor (a : num) : num :=
  match a with
  | Fin q => ofZ (Qfloor q)
  | _ => a
  end.

(** [x !== 0], used to say that a weight is not zero. *)
Definition nonzero (a : num) : bool :=
  match a with
  | Fin q => match qsign q with Eq => false | _ => true end
  | _ => true
  end.

(** The number lies in the closed interval [[0,1]]. *)
Definition in_unit (a : num) : bool := leb (ofZ 0) a && leb a (ofZ 1).

(** The number is neither NaN nor infinite. *)
Definition isFin (a : num) : bool :=
  match a with
  | Fin _ => true
  | _ => false
  end.

End Num.

Export Num.

Declare Scope num_scope.
Delimit Scope num_scope with num.
Bind Scope num_scope with num.
Infix "+" := add : num_scope.
Infix "-" := sub : num_scope.
Infix "*" := mul : num_scope.
Infix "/" := div : num_scope.

(* ===================================================================== *)
(** ** JavaScript strings *)
(* ===================================================================== *)

(** A string is the list of its UTF-16 code units. *)
Definition jsstring : Type := list Z.

(** A literal written with ASCII characters only. *)
Fixpoint lit (s : string) : jsstring :=
  match s with
  | EmptyString => []
  | String c s' => Z.of_nat (nat_of_ascii c) :: lit s'
  end.

Definition units_eqb (a b : jsstring) : bool := bool_decide (a = b).

Fixpoint startsWith (s p : jsstring) : bool :=
  match p, s with
  | [], _ => true
  | _ :: _, [] => false
  | y :: p', x :: s' => (x =? y) && startsWith s' p'
  end.

(** [s.includes(p)] *)
Fixpoint includes (s p : jsstring) : bool :=
  startsWith s p ||
  match s with
  | [] => false
  | _ :: s' => includes s' p
  end.

(** [s.endsWith(p)] *)
Definition endsWith (s p : jsstring) : bool := startsWith (rev s) (rev p).

Definition is_high_surrogate (u : Z) : bool := (0xD800 <=? u) && (u <=? 0xDBFF).
Definition is_low_surrogate (u : Z) : bool := (0xDC00 <=? u) && (u <=? 0xDFFF).

(** The iteration [for (const char of text)]: one string per code point, a
    surrogate pair staying together, a lone surrogate standing alone. *)
Fixpoint chars (text : jsstring) : list jsstring :=
  match text with
  | [] => []
  | u :: rest =>
      match rest with
      | v :: rest' =>
          if is_high_surrogate u && is_low_surrogate v
          then [u; v] :: chars rest'
          else [u] :: chars rest
      | [] => [[u]]
      end
  end.

(** [String.prototype.toLowerCase], one code unit at a time.  The ASCII
    capitals and the two other code units whose lower case contains an
    ASCII letter (U+0130 and the Kelvin sign U+212A) are mapped as Unicode
    maps them; every other unit is kept.  The source only compares lower
    cased text with ASCII literals, and the units kept here have no ASCII
    unit in their real lower case, so those comparisons are unaffected. *)
Definition lower_unit (u : Z) : jsstring :=
  if (0x41 <=? u) && (u <=? 0x5A) then [u + 32]
  else if u =? 0x130 then [0x69; 0x307]
  else if u =? 0x212A then [0x6B]
  else [u].

Definition toLowerCase (s : jsstring) : jsstring := flat_map lower_unit s.

(** [String.prototype.toUpperCase], one code unit at a time.  Mapped as in
    Unicode: the ASCII small letters and every other unit whose upper case
    consists of ASCII letters only (dotless i, long s, sharp s and the
    ligatures U+FB00..U+FB06).  Every other unit is kept: its real upper
    case contains a non-ASCII unit, so an equality test against an ASCII
    literal gives the same answer. *)
Definition upper_unit (u : Z) : jsstring :=
  if (0x61 <=? u) && (u <=? 0x7A) then [u - 32]
  else if u =? 0x131 then [0x49]
  else if u =? 0x17F then [0x53]
  else if u =? 0xDF then [0x53; 0x53]
  else if u =? 0xFB00 then [0x46; 0x46]
  else if u =? 0xFB01 then [0x46; 0x49]
  else if u =? 0xFB02 then [0x46; 0x4C]
  else if u =? 0xFB03 then [0x46; 0x46; 0x49]
  else if u =? 0xFB04 then [0x46; 0x46; 0x4C]
  else if (u =? 0xFB05) || (u =? 0xFB06) then [0x53; 0x54]
  else [u].

Definition toUpperCase (s : jsstring) : jsstring := flat_map upper_unit s.

(** The 32-bit integer conversion applied by the bit operators. *)
Definition toInt32 (z : Z) : Z :=
  let m := z mod 2 ^ 32 in
  if m <? 2 ^ 31 then m else m - 2 ^ 32.

(** [a >> n] *)
Definition sar (a n : Z) : Z := Z.shiftr (toInt32 a) (n mod 32).

(* ===================================================================== *)
(** ** Phonemes, frames and configuration *)
(* ===================================================================== *)

Inductive Phoneme : Type := A | E | I | O | U | N | closed.

Global Instance Phoneme_eq_dec : EqDecision Phoneme.
Proof. solve_decision. Defined.

Definition phoneme_string (p : Phoneme) : jsstring :=
  match p with
  | A => lit "A" | E => lit "E" | I => lit "I" | O => lit "O"
  | U => lit "U" | N => lit "N" | closed => lit "closed"
  end.

(** The phoneme a string denotes, when it is one of the seven tags. *)
Definition phoneme_of_string (s : jsstring) : option Phoneme :=
  List.find (fun p => units_eqb (phoneme_string p) s) [A; E; I; O; U; N; closed].

Record LipFrame : Type := mkFrame {
  phoneme : Phoneme;
  weight : num;
  duration : num
}.

Record LipSyncConfig : Type := mkConfig {
  charDuration : num;
  transitionDuration : num;
  speakingWeight : num;
  enabled : bool
}.

Definition DEFAULT_CONFIG : LipSyncConfig :=
  {| charDuration := ofZ 80;
     transitionDuration := ofZ 50;
     speakingWeight := ofQ (7 # 10);
     enabled := true |}.

(* ===================================================================== *)
(** ** The heuristic phoneme of a character *)
(* ===================================================================== *)

(** White space as matched by [\s]. *)
Definition is_regex_space (u : Z) : bool :=
  ((0x09 <=? u) && (u <=? 0x0D)) || (u =? 0x20) || (u =? 0xA0) ||
  (u =? 0x1680) || ((0x2000 <=? u) && (u <=? 0x200A)) ||
  (u =? 0x2028) || (u =? 0x2029) || (u =? 0x202F) || (u =? 0x205F) ||
  (u =? 0x3000) || (u =? 0xFEFF).

(** The character class of the punctuation test in [getPhonemeForChar]. *)
Definition punct_units : list Z :=
  [0xFF0C; 0x3002; 0xFF01; 0xFF1F; 0x3001; 0xFF1B; 0xFF1A; 0x22; 0x22;
   0x27; 0x27; 0xFF08; 0xFF09; 0x2C; 0x2E; 0x21; 0x3F; 0x3B; 0x3A; 0x28;
   0x29; 0x22].

Definition in_punct_class (u : Z) : bool :=
  existsb (Z.eqb u) punct_units || is_regex_space u.

(** The regular expression has no [u] flag: it is tried on each code unit. *)
Definition punct_test (char : jsstring) : bool := existsb in_punct_class char.

(** [Math.random()]: the draw [m] read as the fraction [m mod 2^53 / 2^53],
    a number in [[0,1)]. *)
Definition Math_random (m : Z) : num := ofQ ((m mod 2 ^ 53) # (2 ^ 53)).

(** [array[n]] for a number [n]: defined at the integers within range. *)
Definition array_get {T : Type} (l : list T) (n : num) : option T :=
  match n with
  | Fin q =>
      if Qeq_bool q (inject_Z (Qfloor q)) && (0 <=? Qfloor q)
      then l !! Z.to_nat (Qfloor q)
      else None
  | _ => None
  end.

Definition vowels : list Phoneme := [A; E; I; O; U].

(** [getPhonemeForChar(char)], with the draw [m] that [Math.random()] gives
    if it is called.  The second component tells whether it was called.
    The two casts [as Phoneme] are total here by falling back on [A]; the
    fall-back is not reached for a draw of [Math.random] nor for a lower
    cased single character found in "aeiou". *)
Definition getPhonemeForChar (m : Z) (char : jsstring) : Phoneme * bool :=
  match char with
  | [] => (A, false)  (* charCodeAt(0) is NaN: both tests fail, the hash is 0 *)
  | code :: _ =>
      if (code <? 0x4e00) || (code >? 0x9fff) then
        if punct_test char then (closed, false)
        else
          let lower := toLowerCase char in
          if includes (lit "aeiou") lower then
            (default A (phoneme_of_string (toUpperCase lower)), false)
          else
            (default A
               (array_get vowels (Math_floor (Math_random m * ofZ 5)%num)),
             true)
      else
        let hash := Z.rem (sar (code * 7 + code) 3) 100 in
        if hash <? 25 then (A, false)
        else if hash <? 45 then (I, false)
        else if hash <? 60 then (E, false)
        else if hash <? 75 then (O, false)
        else if hash <? 90 then (U, false)
        else (N, false)
  end.

(* ===================================================================== *)
(** ** From text and from phoneme tags to frames *)
(* ===================================================================== *)

(** The weight given to a frame of phoneme [p] by [textToFrames]. *)
Definition heuristicWeight (config : LipSyncConfig) (p : Phoneme) : num :=
  if bool_decide (p = closed) || bool_decide (p = N)
  then ofQ (1 # 10)
  else speakingWeight config.

(** One turn of the loop of [textToFrames], the phoneme of the character
    being [p]: the last frame is lengthened in place when it has the same
    phoneme, otherwise a new frame is pushed. *)
Definition textToFrames_step (config : LipSyncConfig)
    (frames : list LipFrame) (p : Phoneme) : list LipFrame :=
  match last frames with
  | Some lastFrame =>
      if bool_decide (phoneme lastFrame = p)
      then <[ (length frames - 1)%nat :=
               {| phoneme := phoneme lastFrame;
                  weight := weight lastFrame;
                  duration := (duration lastFrame + charDuration config)%num |} ]>
             frames
      else frames ++ [ {| phoneme := p;
                          weight := heuristicWeight config p;
                          duration := charDuration config |} ]
  | None => frames ++ [ {| phoneme := p;
                           weight := heuristicWeight config p;
                           duration := charDuration config |} ]
  end.

(** The loop of [textToFrames] over the characters [cs]; [rnd] lists the
    draws of [Math.random] and [i] counts those already used. *)
Fixpoint textToFrames_loop (config : LipSyncConfig) (rnd : nat -> Z)
    (i : nat) (frames : list LipFrame) (cs : list jsstring) : list LipFrame :=
  match cs with
  | [] => frames
  | char :: cs' =>
      let '(p, used) := getPhonemeForChar (rnd i) char in
      textToFrames_loop config rnd (if used then S i else i)
        (textToFrames_step config frames p) cs'
  end.

Definition textToFrames (config : LipSyncConfig) (rnd : nat -> Z)
    (text : jsstring) : list LipFrame :=
  textToFrames_loop config rnd 0%nat [] (chars text).

(** The phoneme and the silence flag [phonemesToFrames] gives to one tag. *)
Definition classifyPhoneme (phonemeStr : jsstring) : Phoneme * bool :=
  let upperPhoneme := toUpperCase phonemeStr in
  if units_eqb upperPhoneme (lit "CLOSED") || units_eqb phonemeStr (lit "closed")
  then (closed, true)
  else if units_eqb upperPhoneme (lit "N") then (N, true)
  else if existsb (units_eqb upperPhoneme)
            [lit "A"; lit "E"; lit "I"; lit "O"; lit "U"]
  then (default A (phoneme_of_string upperPhoneme), false)
  else (A, false).

Definition phonemesToFrames (config : LipSyncConfig)
    (phonemes : list jsstring) (textLength : nat) : list LipFrame :=
  let avgDuration :=
    Math_max (charDuration config)
             ((ofNat textLength * charDuration config) / ofNat (length phonemes))%num in
  map (fun phonemeStr =>
         let '(p, isSilent) := classifyPhoneme phonemeStr in
         {| phoneme := p;
            weight := if isSilent then ofQ (1 # 10) else speakingWeight config;
            duration := avgDuration |})
      phonemes.

(** "你好" *)
Definition ni_hao : jsstring := [0x4F60; 0x597D].

(* ===================================================================== *)
(** ** The controller *)
(* ===================================================================== *)

(** A registered [LipSyncTarget] is known by an identifier; what the
    controller does to it is the list of calls it makes. *)
Definition TargetId : Type := nat.

Inductive Call : Type :=
| SetMouthShape (t : TargetId) (p : Phoneme) (w : num)
| ResetMouth (t : TargetId).

(** The variables [startPlayback] declares and its callback [animate]
    captures. *)
Record Loop : Type := mkLoop {
  lastTime : num;
  frameTimeRemaining : num;
  currentFrame : option LipFrame
}.

(** The fields of [LipSyncController], followed by what surrounds it: the
    callbacks waiting in [requestAnimationFrame] with their handles, the
    next handle to be given out and the calls made on targets so far. *)
Record Controller : Type := mkController {
  target : option TargetId;
  config : LipSyncConfig;
  queue : list LipFrame;
  isPlaying : bool;
  animationTimer : option nat;
  lastChunkTime : num;
  scheduled : list (nat * Loop);
  nextHandle : nat;
  log : list Call
}.

Definition initial : Controller :=
  {| target := None; config := DEFAULT_CONFIG; queue := [];
     isPlaying := false; animationTimer := None; lastChunkTime := ofZ 0;
     scheduled := []; nextHandle := 1; log := [] |}.

Definition with_target (v : option TargetId) (c : Controller) : Controller :=
  mkController v (config c) (queue c) (isPlaying c) (animationTimer c)
    (lastChunkTime c) (scheduled c) (nextHandle c) (log c).
Definition with_config (v : LipSyncConfig) (c : Controller) : Controller :=
  mkController (target c) v (queue c) (isPlaying c) (animationTimer c)
    (lastChunkTime c) (scheduled c) (nextHandle c) (log c).
Definition with_queue (v : list LipFrame) (c : Controller) : Controller :=
  mkController (target c) (config c) v (isPlaying c) (animationTimer c)
    (lastChunkTime c) (scheduled c) (nextHandle c) (log c).
Definition with_isPlaying (v : bool) (c : Controller) : Controller :=
  mkController (target c) (config c) (queue c) v (animationTimer c)
    (lastChunkTime c) (scheduled c) (nextHandle c) (log c).
Definition with_animationTimer (v : option nat) (c : Controller) : Controller :=
  mkController (target c) (config c) (queue c) (isPlaying c) v
    (lastChunkTime c) (scheduled c) (nextHandle c) (log c).
Definition with_lastChunkTime (v : num) (c : Controller) : Controller :=
  mkController (target c) (config c) (queue c) (isPlaying c) (animationTimer c)
    v (scheduled c) (nextHandle c) (log c).
Definition with_scheduled (v : list (nat * Loop)) (c : Controller) : Controller :=
  mkController (target c) (config c) (queue c) (isPlaying c) (animationTimer c)
    (lastChunkTime c) v (nextHandle c) (log c).
Definition with_nextHandle (v : nat) (c : Controller) : Controller :=
  mkController (target c) (config c) (queue c) (isPlaying c) (animationTimer c)
    (lastChunkTime c) (scheduled c) v (log c).

(** A call on target [t] is made: it is appended to the log. *)
Definition call (k : Call) (c : Controller) : Controller :=
  mkController (target c) (config c) (queue c) (isPlaying c) (animationTimer c)
    (lastChunkTime c) (scheduled c) (nextHandle c) (log c ++ [k]).

(** [this.target?.resetMouth()] *)
Definition resetTargetMouth (c : Controller) : Controller :=
  match target c with
  | Some t => call (ResetMouth t) c
  | None => c
  end.

(** [requestAnimationFrame(animate)], [animate] being the callback whose
    captured variables are [l]: the handle and the new state. *)
Definition requestAnimationFrame (l : Loop) (c : Controller) : nat * Controller :=
  (nextHandle c,
   with_nextHandle (S (nextHandle c))
     (with_scheduled (scheduled c ++ [(nextHandle c, l)]) c)).

Definition cancelAnimationFrame (h : nat) (c : Controller) : Controller :=
  with_scheduled (List.filter (fun e => negb (Nat.eqb (fst e) h)) (scheduled c)) c.

(** [this.animationTimer = requestAnimationFrame(animate)] *)
Definition scheduleAnimate (l : Loop) (c : Controller) : Controller :=
  let '(h, c') := requestAnimationFrame l c in
  with_animationTimer (Some h) c'.

(** [setConfig(partial)]: the fields present replace the current ones. *)
Record PartialConfig : Type := mkPartial {
  p_charDuration : option num;
  p_transitionDuration : option num;
  p_speakingWeight : option num;
  p_enabled : option bool
}.

Definition setConfig (p : PartialConfig) (c : Controller) : Controller :=
  with_config
    {| charDuration := default (charDuration (config c)) (p_charDuration p);
       transitionDuration :=
         default (transitionDuration (config c)) (p_transitionDuration p);
       speakingWeight := default (speakingWeight (config c)) (p_speakingWeight p);
       enabled := default (enabled (config c)) (p_enabled p) |}
    c.

Definition getConfig (c : Controller) : LipSyncConfig := config c.

(** [stop()] *)
Definition stop (c : Controller) : Controller :=
  let c1 := with_isPlaying false c in
  let c2 :=
    match animationTimer c1 with
    | Some h =>
        if Nat.eqb h 0 then c1   (* a handle 0 is falsy *)
        else with_animationTimer None (cancelAnimationFrame h c1)
    | None => c1
    end in
  let c3 := with_queue [] c2 in
  resetTargetMouth c3.

(** [setTarget(target)] *)
Definition setTarget (t : option TargetId) (c : Controller) : Controller :=
  let c1 := with_target t c in
  match t with
  | None => stop c1
  | Some _ => c1
  end.

(** [easeInOut(t)] *)
Definition easeInOut (t : num) : num :=
  if ltb t (ofQ (1 # 2))
  then (ofZ 2 * t * t)%num
  else (ofZ 1 - ((ofZ (-2) * t + ofZ 2) * (ofZ (-2) * t + ofZ 2)) / ofZ 2)%num.

(** The weight [applyMouthShape] hands to the target. *)
Definition clampWeight (w : num) : num := Math_max (ofZ 0) (Math_min (ofZ 1) w).

(** [applyMouthShape(phoneme, weight)] *)
Definition applyMouthShape (p : Phoneme) (w : num) (c : Controller) : Controller :=
  match target c with
  | None => c
  | Some t => call (SetMouthShape t p (clampWeight w)) c
  end.

(** The grace window of the playback loop, in milliseconds. *)
Definition GRACE_MS : num := ofZ 500.

(** The first half of [animate]: the time of the held frame is consumed and
    its eased weight is applied.  Returns the remaining time and the state. *)
Definition consumeFrame (l : Loop) (time : num) (c : Controller) : num * Controller :=
  let deltaTime := (time - lastTime l)%num in
  match currentFrame l with
  | Some f =>
      let remaining := (frameTimeRemaining l - deltaTime)%num in
      let progress := (ofZ 1 - remaining / duration f)%num in
      let easedWeight := (easeInOut progress * weight f)%num in
      (remaining, applyMouthShape (phoneme f) easedWeight c)
  | None => (frameTimeRemaining l, c)
  end.

(** The callback [animate(time)] of the loop whose captured variables are
    [l]; [now] is what [Date.now()] returns during the call. *)
Definition animate (l : Loop) (time now : num) (c : Controller) : Controller :=
  if negb (isPlaying c) then c
  else
    let '(remaining, c1) := consumeFrame l time c in
    if leb remaining (ofZ 0) then
      match queue c1 with
      | f :: rest =>
          scheduleAnimate
            {| lastTime := time; frameTimeRemaining := duration f;
               currentFrame := Some f |}
            (with_queue rest c1)
      | [] =>
          let timeSinceLastChunk := (now - lastChunkTime c1)%num in
          if gtb timeSinceLastChunk GRACE_MS
          then with_isPlaying false (resetTargetMouth c1)
          else
            scheduleAnimate
              {| lastTime := time; frameTimeRemaining := remaining;
                 currentFrame := None |}
              c1
      end
    else
      scheduleAnimate
        {| lastTime := time; frameTimeRemaining := remaining;
           currentFrame := currentFrame l |}
        c1.

(** [startPlayback()]; [perfNow] is what [performance.now()] returns. *)
Definition startPlayback (perfNow : num) (c : Controller) : Controller :=
  if isPlaying c then c
  else
    scheduleAnimate
      {| lastTime := perfNow; frameTimeRemaining := ofZ 0; currentFrame := None |}
      (with_isPlaying true c).

(** The common end of the two [processChunk] methods: the frames are
    appended and playback starts if it is idle. *)
Definition enqueueAndPlay (frames : list LipFrame) (perfNow : num)
    (c : Controller) : Controller :=
  let c1 := with_queue (queue c ++ frames) c in
  if isPlaying c1 then c1 else startPlayback perfNow c1.

(** [processChunk(content)]; [rnd] lists the draws [Math.random] makes
    during the call, [now] is what [Date.now()] returns. *)
Definition processChunk (rnd : nat -> Z) (now perfNow : num)
    (content : jsstring) (c : Controller) : Controller :=
  if negb (enabled (config c)) || negb (bool_decide (is_Some (target c))) then c
  else
    let c1 := with_lastChunkTime now c in
    enqueueAndPlay (textToFrames (config c1) rnd content) perfNow c1.

(** [processChunkWithPhonemes(content, phonemes)]; [None] is an absent
    argument. *)
Definition processChunkWithPhonemes (rnd : nat -> Z) (now perfNow : num)
    (content : jsstring) (phonemes : option (list jsstring))
    (c : Controller) : Controller :=
  if negb (enabled (config c)) then c
  else if negb (bool_decide (is_Some (target c))) then c
  else
    let c1 := with_lastChunkTime now c in
    let frames :=
      match phonemes with
      | Some (p :: ps) => phonemesToFrames (config c1) (p :: ps) (length content)
      | _ => textToFrames (config c1) rnd content
      end in
    enqueueAndPlay frames perfNow c1.

(** [onComplete()] *)
Definition onComplete (c : Controller) : Controller :=
  with_queue
    (queue c ++
       [ {| phoneme := closed; weight := ofZ 0;
            duration := (transitionDuration (config c) * ofZ 2)%num |} ])
    c.

(** One animation frame of the browser: every callback waiting when the
    frame begins is run with the frame's timestamp. *)
Definition runFrame (time now : num) (c : Controller) : Controller :=
  fold_left (fun c' e => animate (snd e) time now c')
            (scheduled c) (with_scheduled [] c).

(* ===================================================================== *)
(** ** Mouth-shape adapters *)
(* ===================================================================== *)

(** A call on a [LipSyncTarget]. *)
Inductive TargetCall : Type :=
| CallSetMouthShape (p : Phoneme) (w : num)
| CallResetMouth.

(** [array.findIndex(f)], [None] standing for -1. *)
Fixpoint findIndex {T : Type} (f : T -> bool) (l : list T) : option nat :=
  match l with
  | [] => None
  | x :: l' => if f x then Some 0%nat else S <$> findIndex f l'
  end.

Module VRM.

Definition VRM_MOUTH_SHAPES (p : Phoneme) : list jsstring :=
  match p with
  | A => [lit "aa"; lit "a"; lit "mouth_a"; lit "vrc.v_aa"; lit "fcl_mth_a"]
  | E => [lit "ee"; lit "e"; lit "mouth_e"; lit "vrc.v_ee"; lit "fcl_mth_e"]
  | I => [lit "ih"; lit "i"; lit "mouth_i"; lit "vrc.v_ih"; lit "fcl_mth_i"]
  | O => [lit "oh"; lit "o"; lit "mouth_o"; lit "vrc.v_oh"; lit "fcl_mth_o"]
  | U => [lit "ou"; lit "u"; lit "mouth_u"; lit "vrc.v_ou"; lit "fcl_mth_u"]
  | N => [lit "nn"; lit "n"]
  | closed => []
  end.

(** The loop over the candidates in [findShape]. *)
Fixpoint findShape_loop (availableExpressions lowerExpressions : list jsstring)
    (candidates : list jsstring) : option jsstring :=
  match candidates with
  | [] => None
  | candidate :: rest =>
      match findIndex (fun e => units_eqb e candidate || includes e candidate)
                      lowerExpressions with
      | Some index => availableExpressions !! index
      | None => findShape_loop availableExpressions lowerExpressions rest
      end
  end.

Definition findShape (availableExpressions : list jsstring) (p : Phoneme)
    : option jsstring :=
  findShape_loop availableExpressions (map toLowerCase availableExpressions)
                 (VRM_MOUTH_SHAPES p).

(** The precomputed [shapeMap]: filled for the six phonemes of the list
    [phonemes], and only with a truthy (non-empty) name. *)
Definition shapeMapOf (availableExpressions : list jsstring) (p : Phoneme)
    : option jsstring :=
  if bool_decide (p ∈ [A; E; I; O; U; N]) then
    match findShape availableExpressions p with
    | Some [] => None
    | r => r
    end
  else None.

(** The adapter: its [shapeMap], its variable [lastPhoneme], and the
    weights of the model's expressions, which the callback [setExpression]
    writes. *)
Record Adapter : Type := mkAdapter {
  shapeMap : Phoneme -> option jsstring;
  lastPhoneme : Phoneme;
  expressions : gmap jsstring num
}.

(** [createVRMLipSyncAdapter(setExpression, _, availableExpressions)] on a
    model whose expression weights are [weights]. *)
Definition createVRMLipSyncAdapter (availableExpressions : list jsstring)
    (weights : gmap jsstring num) : Adapter :=
  {| shapeMap := shapeMapOf availableExpressions;
     lastPhoneme := closed;
     expressions := weights |}.

(** The callback [setExpression(name, weight)]. *)
Definition setExpression (name : jsstring) (w : num) (a : Adapter) : Adapter :=
  mkAdapter (shapeMap a) (lastPhoneme a) (<[name := w]> (expressions a)).

Definition with_lastPhoneme (p : Phoneme) (a : Adapter) : Adapter :=
  mkAdapter (shapeMap a) p (expressions a).

(** [const s = shapeMap[p]; if (s) setExpression(s, w)] *)
Definition setShapeOf (p : Phoneme) (w : num) (a : Adapter) : Adapter :=
  match shapeMap a p with
  | Some s => setExpression s w a
  | None => a
  end.

Definition setMouthShape (p : Phoneme) (w : num) (a : Adapter) : Adapter :=
  let a1 :=
    if bool_decide (lastPhoneme a ≠ p) && bool_decide (lastPhoneme a ≠ closed)
    then setShapeOf (lastPhoneme a) (ofZ 0) a
    else a in
  with_lastPhoneme p (setShapeOf p w a1).

Definition resetMouth (a : Adapter) : Adapter :=
  let a1 :=
    if bool_decide (lastPhoneme a ≠ closed)
    then setShapeOf (lastPhoneme a) (ofZ 0) a
    else a in
  with_lastPhoneme closed a1.

Definition perform (a : Adapter) (k : TargetCall) : Adapter :=
  match k with
  | CallSetMouthShape p w => setMouthShape p w a
  | CallResetMouth => resetMouth a
  end.

Definition run (ks : list TargetCall) (a : Adapter) : Adapter :=
  fold_left perform ks a.

(** The weight of an expression; one that has no entry is at rest. *)
Definition weightOf (name : jsstring) (a : Adapter) : num :=
  default (ofZ 0) (expressions a !! name).

End VRM.

Module MMD.

Definition MMD_MOUTH_SHAPES (p : Phoneme) : list jsstring :=
  match p with
  | A => [[0x3042]; lit "a"]
  | E => [[0x3048]; lit "e"]
  | I => [[0x3044]; lit "i"]
  | O => [[0x304A]; lit "o"]
  | U => [[0x3046]; lit "u"]
  | N => [[0x3093]; lit "n"]
  | closed => []
  end.

(** The adapter: the mesh's [morphTargetDictionary] and its shared array
    [morphTargetInfluences], and the variable [lastIndex]. *)
Record Adapter : Type := mkAdapter {
  dict : gmap jsstring Z;
  influences : list num;
  lastIndex : Z
}.

(** [createMMDLipSyncAdapter(mesh)]; an absent dictionary or array is
    replaced by an empty one. *)
Definition createMMDLipSyncAdapter (morphTargetDictionary : option (gmap jsstring Z))
    (morphTargetInfluences : option (list num)) : Adapter :=
  {| dict := default ∅ morphTargetDictionary;
     influences := default [] morphTargetInfluences;
     lastIndex := -1 |}.

Fixpoint findMorphIndex_loop (d : gmap jsstring Z) (candidates : list jsstring) : Z :=
  match candidates with
  | [] => -1
  | name :: rest =>
      match d !! name with
      | Some i => i
      | None => findMorphIndex_loop d rest
      end
  end.

Definition findMorphIndex (a : Adapter) (p : Phoneme) : Z :=
  findMorphIndex_loop (dict a) (MMD_MOUTH_SHAPES p).

(** [influences[i]]: [None] is [undefined]. *)
Definition influenceAt (infl : list num) (i : Z) : option num :=
  if 0 <=? i then infl !! Z.to_nat i else None.

(** [if (i !== -1 && influences[i] !== undefined) influences[i] = w];
    the boolean tells whether the assignment was made. *)
Definition writeInfluence (i : Z) (w : num) (infl : list num) : list num * bool :=
  if negb (i =? -1) && bool_decide (is_Some (influenceAt infl i))
  then (<[Z.to_nat i := w]> infl, true)
  else (infl, false).

Definition setMouthShape (p : Phoneme) (w : num) (a : Adapter) : Adapter :=
  let infl1 := fst (writeInfluence (lastIndex a) (ofZ 0) (influences a)) in
  let index := findMorphIndex a p in
  let '(infl2, written) := writeInfluence index w infl1 in
  mkAdapter (dict a) infl2 (if written then index else lastIndex a).

Definition resetMouth (a : Adapter) : Adapter :=
  mkAdapter (dict a)
    (fst (writeInfluence (lastIndex a) (ofZ 0) (influences a))) (-1).

Definition perform (a : Adapter) (k : TargetCall) : Adapter :=
  match k with
  | CallSetMouthShape p w => setMouthShape p w a
  | CallResetMouth => resetMouth a
  end.

Definition run (ks : list TargetCall) (a : Adapter) : Adapter :=
  fold_left perform ks a.

End MMD.

(* ===================================================================== *)
(** ** Renderer factories and registry *)
(* ===================================================================== *)

Inductive Factory : Type :=
| Live2DRendererFactory
| VRMRendererFactory
| GLTFRendererFactory
| FBXRendererFactory
| MMDRendererFactory.

Global Instance Factory_eq_dec : EqDecision Factory.
Proof. solve_decision. Defined.

(** The method [canHandle(modelPath)] of each factory. *)
Definition factoryCanHandle (f : Factory) (modelPath : jsstring) : bool :=
  match f with
  | Live2DRendererFactory =>
      endsWith modelPath (lit ".model.json") ||
      endsWith modelPath (lit ".model3.json")
  | VRMRendererFactory =>
      endsWith modelPath (lit ".vrm") || endsWith modelPath (lit ".glb")
  | GLTFRendererFactory =>
      let lower := toLowerCase modelPath in
      if endsWith lower (lit ".vrm") then false
      else endsWith lower (lit ".gltf") || endsWith lower (lit ".glb")
  | FBXRendererFactory => endsWith (toLowerCase modelPath) (lit ".fbx")
  | MMDRendererFactory =>
      let lower := toLowerCase modelPath in
      endsWith lower (lit ".pmd") || endsWith lower (lit ".pmx")
  end.

(** [RendererRegistry]: the factories in the order of their registration. *)
Definition RendererRegistry : Type := list Factory.

Definition register (f : Factory) (r : RendererRegistry) : RendererRegistry :=
  r ++ [f].

Definition getFactory (r : RendererRegistry) (modelPath : jsstring) : option Factory :=
  List.find (fun f => factoryCanHandle f modelPath) r.

Definition canHandle (r : RendererRegistry) (modelPath : jsstring) : bool :=
  existsb (fun f => factoryCanHandle f modelPath) r.

(** The factories of a registry whose [canHandle] accepts the path. *)
Definition acceptingFactories (r : RendererRegistry) (modelPath : jsstring)
    : list Factory :=
  List.filter (fun f => factoryCanHandle f modelPath) r.

Definition createDefaultRendererRegistry : RendererRegistry :=
  register MMDRendererFactory
    (register FBXRendererFactory
       (register GLTFRendererFactory
          (register VRMRendererFactory
             (register Live2DRendererFactory [])))).

(* ===================================================================== *)
(** ** Format detection in the model store *)
(* ===================================================================== *)

Inductive ModelType : Type := live2d | vrm | gltf | fbx | mmd.

(** [dataView.getUint32(offset, true)]; [None] when the four bytes are not
    all inside the buffer (a RangeError in the source). *)
Definition getUint32LE (buffer : list Z) (offset : nat) : option Z :=
  match take 4 (drop offset buffer) with
  | [b0; b1; b2; b3] => Some (b0 + b1 * 2 ^ 8 + b2 * 2 ^ 16 + b3 * 2 ^ 24)
  | _ => None
  end.

(** [new Uint8Array(buffer, offset, len)]; [None] when the view does not
    fit in the buffer (a RangeError in the source). *)
Definition viewBytes (buffer : list Z) (offset : nat) (len : Z) : option (list Z) :=
  if (Z.of_nat offset + len <=? Z.of_nat (length buffer))
  then Some (take (Z.to_nat len) (drop offset buffer))
  else None.

(** A marker between double quotes, and the three marker tests made on the
    decoded text.  The markers are
    ASCII and UTF-8 decoding keeps every ASCII byte in place and puts at
    least one non-ASCII character for any run of other bytes, so the tests
    are made on the bytes themselves. *)
Definition quoted (s : string) : jsstring := [0x22] ++ lit s ++ [0x22].

Definition hasVRMMarkers (bytes : list Z) : bool :=
  includes bytes (quoted "VRM") ||
  includes bytes (quoted "VRMC_vrm") ||
  includes bytes (quoted "VRMC_springBone").

(** [detectVRMExtension(path)], given what fetching the path returns
    ([None]: the fetch fails).  Every exception is caught and gives
    [false]. *)
Definition detectVRMExtension (fetched : option (list Z)) : bool :=
  match fetched with
  | None => false
  | Some buffer =>
      match getUint32LE buffer 0 with
      | None => false
      | Some magic =>
          if magic =? 0x46546C67 then
            match getUint32LE buffer 12, getUint32LE buffer 16 with
            | Some jsonChunkLength, Some jsonChunkType =>
                if jsonChunkType =? 0x4E4F534A then
                  match viewBytes buffer 20 jsonChunkLength with
                  | Some jsonBytes => hasVRMMarkers jsonBytes
                  | None => false
                  end
                else false
            | _, _ => false
            end
          else hasVRMMarkers buffer
      end
  end.

(** The model type chosen by the store's [loadModel(path)]. *)
Definition detectModelType (path : jsstring) (fetched : option (list Z)) : ModelType :=
  let lowerPath := toLowerCase path in
  if endsWith lowerPath (lit ".vrm") then vrm
  else if endsWith lowerPath (lit ".glb") || endsWith lowerPath (lit ".gltf") then
    if detectVRMExtension fetched then vrm else gltf
  else if endsWith lowerPath (lit ".fbx") then fbx
  else if endsWith lowerPath (lit ".pmd") || endsWith lowerPath (lit ".pmx") then mmd
  else if includes lowerPath (lit "model.json") || includes lowerPath (lit "model3.json")
  then live2d
  else live2d.

(* ===================================================================== *)
(** ** Notions used to state the properties *)
(* ===================================================================== *)


(** The maximal runs of equal adjacent phonemes, each with its length:
    [runsFrom p n ps] are the runs of [ps] preceded by [n] times [p]. *)
Fixpoint runsFrom (p : Phoneme) (n : nat) (ps : list Phoneme) : list (Phoneme * nat) :=
  match ps with
  | [] => [(p, n)]
  | q :: ps' =>
      if bool_decide (q = p) then runsFrom p (S n) ps'
      else (p, n) :: runsFrom q 1%nat ps'
  end.

Definition runs (ps : list Phoneme) : list (Phoneme * nat) :=
  match ps with
  | [] => []
  | p :: ps' => runsFrom p 1%nat ps'
  end.


(** A character whose phoneme does not depend on [Math.random]: an
    ideograph of U+4E00..U+9FFF, a character of the punctuation class or
    a vowel letter. *)
Definition isFixedChar (char : jsstring) : bool :=
  match char with
  | [] => true
  | code :: _ =>
      negb ((code <? 0x4e00) || (code >? 0x9fff)) ||
      punct_test char ||
      includes (lit "aeiou") (toLowerCase char)
  end.

Definition isVocalic (p : Phoneme) : bool := bool_decide (p ∈ [A; E; I; O; U]).

Definition isResetCall (k : Call) : bool :=
  match k with
  | ResetMouth _ => true
  | SetMouthShape _ _ _ => false
  end.

(** The weight passed by a call of [setMouthShape] lies in [[0,1]]. *)
Definition callWeightInUnit (k : Call) : bool :=
  match k with
  | SetMouthShape _ _ w => in_unit w
  | ResetMouth _ => true
  end.

(** A frame with a finite weight and a finite duration other than zero. *)
Definition regularFrame (f : LipFrame) : bool :=
  isFin (weight f) && isFin (duration f) && nonzero (duration f).

Definition regularLoop (l : Loop) : bool :=
  isFin (lastTime l) && isFin (frameTimeRemaining l) &&
  match currentFrame l with
  | Some f => regularFrame f
  | None => true
  end.

(** What [consumeFrame] adds to the log: at most one call of
    [setMouthShape], with the clamped eased weight. *)
Definition consumeCalls (l : Loop) (time : num) (c : Controller) : list Call :=
  match currentFrame l, target c with
  | Some f, Some t =>
      [SetMouthShape t (phoneme f)
         (clampWeight
            (easeInOut (ofZ 1 - (frameTimeRemaining l - (time - lastTime l))
                                / duration f)
             * weight f)%num)]
  | _, _ => []
  end.

(** The time left for the held frame once [animate] has consumed the time
    elapsed since the previous tick. *)
Definition remainingAfter (l : Loop) (time : num) : num :=
  match currentFrame l with
  | Some _ => (frameTimeRemaining l - (time - lastTime l))%num
  | None => frameTimeRemaining l
  end.

(** The calls of [resetMouth] in a log. *)
Definition resetCalls (ks : list Call) : list Call := List.filter isResetCall ks.

(** A finite number above zero. *)
Definition positive (a : num) : bool := isFin a && ltb (ofZ 0) a.


(** What happens to a controller: the calls of its public methods and the
    animation frames of the browser. *)
Inductive Event : Type :=
| EvSetTarget (t : option TargetId)
| EvSetConfig (p : PartialConfig)
| EvProcessChunk (rnd : nat -> Z) (now perfNow : num) (content : jsstring)
| EvProcessChunkWithPhonemes (rnd : nat -> Z) (now perfNow : num)
    (content : jsstring) (phonemes : option (list jsstring))
| EvOnComplete
| EvStop
| EvFrame (time now : num).

Definition applyEvent (c : Controller) (e : Event) : Controller :=
  match e with
  | EvSetTarget t => setTarget t c
  | EvSetConfig p => setConfig p c
  | EvProcessChunk rnd now perfNow content => processChunk rnd now perfNow content c
  | EvProcessChunkWithPhonemes rnd now perfNow content phonemes =>
      processChunkWithPhonemes rnd now perfNow content phonemes c
  | EvOnComplete => onComplete c
  | EvStop => stop c
  | EvFrame time now => runFrame time now c
  end.

Definition runEvents (es : list Event) (c : Controller) : Controller :=
  fold_left applyEvent es c.

(** An event with finite clock readings which, if it changes the
    configuration, keeps the durations finite and positive and the weight
    finite. *)
Definition regularEvent (e : Event) : bool :=
  match e with
  | EvSetConfig p =>
      from_option positive true (p_charDuration p) &&
      from_option positive true (p_transitionDuration p) &&
      from_option isFin true (p_speakingWeight p)
  | EvProcessChunk _ _ perfNow _ => isFin perfNow
  | EvProcessChunkWithPhonemes _ _ perfNow _ _ => isFin perfNow
  | EvFrame time _ => isFin time
  | _ => true
  end.


(** At most one of the shapes the VRM adapter controls has a weight other
    than zero. *)
Definition vrmExclusive (a : VRM.Adapter) : Prop :=
  forall p1 p2 n1 n2,
    VRM.shapeMap a p1 = Some n1 -> VRM.shapeMap a p2 = Some n2 ->
    nonzero (VRM.weightOf n1 a) = true -> nonzero (VRM.weightOf n2 a) = true ->
    n1 = n2.

(** Every shape the VRM adapter controls is at weight zero. *)
Definition vrmAtRest (a : VRM.Adapter) : Prop :=
  forall p n, VRM.shapeMap a p = Some n -> nonzero (VRM.weightOf n a) = false.

(** At most one of the morph indices the MMD adapter controls has an
    influence other than zero. *)
Definition mmdExclusive (a : MMD.Adapter) : Prop :=
  forall p1 p2 w1 w2,
    MMD.influenceAt (MMD.influences a) (MMD.findMorphIndex a p1) = Some w1 ->
    MMD.influenceAt (MMD.influences a) (MMD.findMorphIndex a p2) = Some w2 ->
    nonzero w1 = true -> nonzero w2 = true ->
    MMD.findMorphIndex a p1 = MMD.findMorphIndex a p2.

(** Every morph index the MMD adapter controls has influence zero. *)
Definition mmdAtRest (a : MMD.Adapter) : Prop :=
  forall p w,
    MMD.influenceAt (MMD.influences a) (MMD.findMorphIndex a p) = Some w ->
    nonzero w = false.

(** What the VRM adapter maintains: no shape is mapped to [closed], and a
    controlled shape with a weight other than zero is the shape of
    [lastPhoneme]. *)
Definition vrmInv (a : VRM.Adapter) : Prop :=
  VRM.shapeMap a closed = None /\
  forall p n,
    VRM.shapeMap a p = Some n -> nonzero (VRM.weightOf n a) = true ->
    VRM.shapeMap a (VRM.lastPhoneme a) = Some n.

(** What the MMD adapter maintains: a controlled index with an influence
    other than zero is [lastIndex]. *)
Definition mmdInv (a : MMD.Adapter) : Prop :=
  forall p w,
    MMD.influenceAt (MMD.influences a) (MMD.findMorphIndex a p) = Some w ->
    nonzero w = true ->
    MMD.findMorphIndex a p = MMD.lastIndex a.

(** Sample data. *)

Definition le32 (n : Z) : list Z :=
  [n mod 256; (n / 2 ^ 8) mod 256; (n / 2 ^ 16) mod 256; (n / 2 ^ 24) mod 256].

(** A binary glTF container holding the JSON chunk [json]. *)
Definition glbOf (json : list Z) : list Z :=
  lit "glTF" ++ le32 2 ++ le32 (20 + Z.of_nat (length json)) ++
  le32 (Z.of_nat (length json)) ++ lit "JSON" ++ json.

(** [{"asset":{"version":"2.0"}}] *)
Definition plainJson : list Z :=
  lit "{" ++ quoted "asset" ++ lit ":{" ++ quoted "version" ++ lit ":" ++
  quoted "2.0" ++ lit "}}".

(** [{"asset":{"version":"2.0"},"extensions":{"VRM":{}}}] *)
Definition vrmJson : list Z :=
  lit "{" ++ quoted "asset" ++ lit ":{" ++ quoted "version" ++ lit ":" ++
  quoted "2.0" ++ lit "}," ++ quoted "extensions" ++ lit ":{" ++ quoted "VRM" ++
  lit ":{}}}".

Definition constRnd (m : Z) : nat -> Z := fun _ => m.

(** A session: a target is registered, two chunks arrive, frames are
    drawn, the stream completes and the loop runs out. *)
Definition demoSession : list Event :=
  [EvSetTarget (Some 7%nat);
   EvProcessChunkWithPhonemes (constRnd 0) (ofZ 1000) (ofZ 0) ni_hao
     (Some [lit "A"; lit "N"]);
   EvFrame (ofZ 16) (ofZ 1016);
   EvFrame (ofZ 66) (ofZ 1066);
   EvProcessChunk (constRnd 0) (ofZ 1070) (ofZ 70) (lit "ok!");
   EvFrame (ofZ 116) (ofZ 1116);
   EvFrame (ofZ 300) (ofZ 1300);
   EvOnComplete;
   EvFrame (ofZ 500) (ofZ 1500);
   EvFrame (ofZ 700) (ofZ 1700);
   EvFrame (ofZ 1700) (ofZ 2700);
   EvFrame (ofZ 1900) (ofZ 2900)].

(** Expressions of a VRM model and a sequence of calls on its adapter. *)
Definition demoExpressions : list jsstring := [lit "Aa"; lit "Ih"; lit "happy"].

Definition demoCalls : list TargetCall :=
  [CallSetMouthShape A (ofQ (1 # 2)); CallSetMouthShape I (ofQ (7 # 10));
   CallSetMouthShape closed (ofZ 0); CallSetMouthShape E (ofQ (1 # 5));
   CallResetMouth; CallSetMouthShape A (ofQ (3 # 10))].

(** The morph dictionary and the influences of an MMD mesh. *)
Definition demoDict : gmap jsstring Z :=
  <[ [0x3042] := 0 ]> (<[ lit "i" := 2 ]> (<[ lit "blink" := 1 ]> ∅)).

Definition demoInfluences : list num := [ofZ 0; ofZ 1; ofZ 0].

(** A controller with target 7 that has received the chunk "a" at time
    1000, and the same after the first animation frame, which takes the
    frame of "a" from the queue. *)
Definition demoStart : Controller :=
  processChunk (constRnd 0) (ofZ 1000) (ofZ 0) (lit "a")
    (setTarget (Some 7%nat) initial).

Definition demoHolding : Controller := runFrame (ofZ 16) (ofZ 1016) demoStart.

(** The variables of the playback loop in [demoHolding]. *)
Definition demoLoop : Loop :=
  {| lastTime := ofZ 16; frameTimeRemaining := ofZ 80;
     currentFrame :=
       Some {| phoneme := A; weight := ofQ (7 # 10); duration := ofZ 80 |} |}.




(* ===================================================================== *)
(** ** Further notions: the playback loop over a run *)
(* ===================================================================== *)

(** The target a call is made on. *)
Definition callTarget (k : Call) : TargetId :=
  match k with
  | SetMouthShape t _ _ => t
  | ResetMouth t => t
  end.

(** The event registers the target [t]. *)
Definition registers (t : TargetId) (e : Event) : bool :=
  match e with
  | EvSetTarget (Some t') => Nat.eqb t' t
  | _ => false
  end.

(** What every run maintains about the loop: handles start at 1; while
    playing, exactly one callback waits, the one [animationTimer] names;
    while not playing, no callback waits. *)
Definition loopInv (c : Controller) : Prop :=
  (1 <= nextHandle c)%nat /\
  (forall h, animationTimer c = Some h -> h <> 0%nat) /\
  (isPlaying c = true ->
     exists h l, animationTimer c = Some h /\ scheduled c = [(h, l)]) /\
  (isPlaying c = false -> scheduled c = []).

(** Moreover a target is registered while the loop is playing. *)
Definition playbackInv (c : Controller) : Prop :=
  loopInv c /\ (isPlaying c = true -> is_Some (target c)).


(** After a handoff to target 8 in the middle of a frame: what follows. *)
Definition handoffEvents : list Event :=
  [EvFrame (ofZ 66) (ofZ 1066);
   EvProcessChunk (constRnd 0) (ofZ 1070) (ofZ 70) (lit "ok!");
   EvFrame (ofZ 116) (ofZ 1116);
   EvOnComplete;
   EvFrame (ofZ 300) (ofZ 1300);
   EvStop].


(** The two polynomials of [easeInOut], over the rationals. *)
Definition easeLow (q : Qc) : Qc := (Q2Qc (inject_Z 2) * q * q)%Qc.

Definition easeHigh (q : Qc) : Qc :=
  (Q2Qc (inject_Z 1) +
   - ((Q2Qc (inject_Z (-2)) * q + Q2Qc (inject_Z 2)) *
      (Q2Qc (inject_Z (-2)) * q + Q2Qc (inject_Z 2)) * Q2Qc (1 # 2)))%Qc.

(** Turns a goal on canonical rationals into one on plain rationals. *)
Ltac qc2q :=
  unfold Qcle, Qclt, Qcplus, Qcmult, Qcopp, Qcminus, Qcdiv, Qcinv, Q2Qc in *;
  cbn [this] in *; rewrite ?Qred_correct in *; unfold inject_Z in *.

(** The expression name matches a candidate of the phoneme: its lower-case
    form contains the candidate. *)
Definition matchesCandidate (p : Phoneme) (name : jsstring) : bool :=
  existsb (fun candidate => includes (toLowerCase name) candidate)
          (VRM.VRM_MOUTH_SHAPES p).

(** The expression name is the shape of some phoneme. *)
Definition vrmControls (a : VRM.Adapter) (name : jsstring) : Prop :=
  exists p, VRM.shapeMap a p = Some name.

(** The index is the morph index of some phoneme. *)
Definition mmdControls (a : MMD.Adapter) (i : Z) : Prop :=
  exists p, MMD.findMorphIndex a p = i.

(** An expression of the demonstration model that is no mouth shape. *)
Definition demoOtherExpression : jsstring := lit "happy".

(** The [modelType] of the renderer that the factory's [create] returns. *)
Definition createdModelType (f : Factory) : ModelType :=
  match f with
  | Live2DRendererFactory => live2d
  | VRMRendererFactory => vrm
  | GLTFRendererFactory => gltf
  | FBXRendererFactory => fbx
  | MMDRendererFactory => mmd
  end.

(** A path with the extension of a VRM file in capitals. *)
Definition upperVrmPath : jsstring := lit "Avatar.VRM".

(** The bytes of a binary glTF file: the magic, the version and total
    length fields, and one first chunk with its declared length, its type
    field and what follows. *)
Definition glbFile (version total : list Z) (declared : Z) (chunkType rest : list Z)
    : list Z :=
  lit "glTF" ++ version ++ total ++ le32 declared ++ chunkType ++ rest.

(* ===================================================================== *)
(** ** Emotions and expressions *)
(* ===================================================================== *)

Inductive Emotion : Type := neutral | happy | sad | angry | surprised | thinking.

Definition EMOTION_EXPRESSION_MAP (emotion : Emotion) : list jsstring :=
  match emotion with
  | happy => [lit "happy"; lit "smile"; lit "joy"; lit "aa"]
  | sad => [lit "sad"; lit "cry"; lit "sorrow"]
  | angry => [lit "angry"; lit "mad"; lit "furious"]
  | surprised => [lit "surprised"; lit "shock"; lit "amazed"; lit "oh"]
  | neutral => [lit "neutral"; lit "normal"; lit "default"; lit "idle"]
  | thinking => [lit "thinking"; lit "hmm"; lit "curious"]
  end.

(** The test made by [findExpressionForEmotion] on a lower-cased
    expression name [e] and a candidate. *)
Definition emotionTest (candidate e : jsstring) : bool :=
  includes e candidate || includes candidate e.

(** The loop over the candidates in [findExpressionForEmotion]. *)
Fixpoint findExpression_loop (availableExpressions lowerExpressions : list jsstring)
    (candidates : list jsstring) : option jsstring :=
  match candidates with
  | [] => None
  | candidate :: rest =>
      match findIndex (emotionTest candidate) lowerExpressions with
      | Some index => availableExpressions !! index
      | None => findExpression_loop availableExpressions lowerExpressions rest
      end
  end.

Definition findExpressionForEmotion (emotion : Emotion)
    (availableExpressions : list jsstring) : option jsstring :=
  findExpression_loop availableExpressions (map toLowerCase availableExpressions)
                      (EMOTION_EXPRESSION_MAP emotion).

(** [r] is the first expression of [availableExpressions] that passes the
    test for the candidate number [k], and no expression passes the test
    for an earlier candidate. *)
Definition firstMatch (candidates availableExpressions : list jsstring)
    (r : jsstring) : Prop :=
  exists (k i : nat) (candidate : jsstring),
    candidates !! k = Some candidate /\
    availableExpressions !! i = Some r /\
    emotionTest candidate (toLowerCase r) = true /\
    (forall j x, (j < i)%nat -> availableExpressions !! j = Some x ->
       emotionTest candidate (toLowerCase x) = false) /\
    (forall k' c j x, (k' < k)%nat -> candidates !! k' = Some c ->
       availableExpressions !! j = Some x ->
       emotionTest c (toLowerCase x) = false).

(* ===================================================================== *)
(** ** The renderer's set-up of the lip sync *)
(* ===================================================================== *)

(** The case folding of a regular expression with the flag [i] and without
    the flag [u], as far as a pattern of ASCII small letters can see it:
    a capital ASCII letter is the same as its small letter, and no other
    code unit is the same as an ASCII letter. *)
Definition ascii_fold (u : Z) : Z :=
  if (0x41 <=? u) && (u <=? 0x5A) then u + 32 else u.

(** [/a1|a2|.../i.test(s)], the alternatives being words of ASCII small
    letters. *)
Definition regexTestI (alternatives : list jsstring) (s : jsstring) : bool :=
  existsb (includes (map ascii_fold s)) alternatives.

(** The list [mouthShapes] that [setupLipSync] computes for its log, and
    whether it warns that no mouth shape was found. *)
Definition mouthShapes (availableExpressions : list jsstring) : list jsstring :=
  List.filter (regexTestI [lit "aa"; lit "ee"; lit "ih"; lit "oh"; lit "ou"])
              availableExpressions.

Definition warnsNoMouthShape (availableExpressions : list jsstring) : bool :=
  bool_decide (length (mouthShapes availableExpressions) = 0%nat).

(** The frame held by the waiting callback of the playback loop. *)
Definition heldFrame (c : Controller) : list LipFrame :=
  match scheduled c with
  | [(_, l)] => match currentFrame l with Some f => [f] | None => [] end
  | _ => []
  end.

(** The frames the controller has still to show: the held frame, then the
    queue. *)
Definition pending (c : Controller) : list LipFrame := heldFrame c ++ queue c.

(** The frame [onComplete] pushes. *)
Definition closingFrame (config : LipSyncConfig) : LipFrame :=
  {| phoneme := closed; weight := ofZ 0;
     duration := (transitionDuration config * ofZ 2)%num |}.

(** The frames a call of [processChunkWithPhonemes] makes. *)
Definition chunkFrames (config : LipSyncConfig) (rnd : nat -> Z)
    (content : jsstring) (phonemes : option (list jsstring)) : list LipFrame :=
  match phonemes with
  | Some (p :: ps) => phonemesToFrames config (p :: ps) (length content)
  | _ => textToFrames config rnd content
  end.

(* ===================================================================== *)
(** ** Facts about numbers *)
(* ===================================================================== *)


Lemma isFin_Fin (a : num) : isFin a = true -> exists q, a = Fin q.
Proof. destruct a; simpl; try discriminate. eauto. Qed.

(** Clamping gives a number of [[0,1]] for every argument but NaN. *)
Lemma clampWeight_in_unit (w : num) : w <> NaN -> in_unit (clampWeight w) = true.
Proof.
  intros Hw. destruct w as [| | |q]; [congruence | reflexivity | reflexivity |].
  unfold clampWeight, Math_min, ofZ, ofQ.
  cbn [ltb].
  destruct (q ?= Q2Qc (inject_Z 1))%Qc eqn:E1; try reflexivity.
  unfold Math_max, in_unit, ofZ, ofQ. cbn [ltb].
  destruct (Q2Qc (inject_Z 0) ?= q)%Qc eqn:E0; try reflexivity.
  cbn [leb]. rewrite E0, E1. reflexivity.
Qed.

Lemma clampWeight_NaN : clampWeight NaN = NaN.
Proof. reflexivity. Qed.

Lemma isFin_add (a b : num) : isFin a = true -> isFin b = true -> isFin (a + b)%num = true.
Proof. destruct a, b; simpl; congruence. Qed.

Lemma isFin_sub (a b : num) : isFin a = true -> isFin b = true -> isFin (a - b)%num = true.
Proof. destruct a, b; simpl; congruence. Qed.

Lemma isFin_mul (a b : num) : isFin a = true -> isFin b = true -> isFin (a * b)%num = true.
Proof. destruct a, b; simpl; congruence. Qed.

Lemma isFin_div (a b : num) :
  isFin a = true -> isFin b = true -> nonzero b = true -> isFin (a / b)%num = true.
Proof.
  destruct a as [| | |p], b as [| | |q]; simpl; try congruence.
  destruct (qsign q); simpl; congruence.
Qed.

Lemma isFin_ofZ (z : Z) : isFin (ofZ z) = true.
Proof. reflexivity. Qed.

Lemma isFin_easeInOut (t : num) : isFin t = true -> isFin (easeInOut t) = true.
Proof.
  intros Ht. unfold easeInOut.
  destruct (ltb t (ofQ (1 # 2))).
  - repeat apply isFin_mul; auto using isFin_ofZ.
  - apply isFin_sub; [apply isFin_ofZ|].
    apply isFin_div; [| apply isFin_ofZ | reflexivity].
    apply isFin_mul; apply isFin_add; auto using isFin_ofZ, isFin_mul.
Qed.

Lemma isFin_not_NaN (a : num) : isFin a = true -> a <> NaN.
Proof. destruct a; simpl; congruence. Qed.

(* ===================================================================== *)
(** ** The calls made by the playback loop *)
(* ===================================================================== *)

Lemma log_scheduleAnimate (l : Loop) (c : Controller) :
  log (scheduleAnimate l c) = log c.
Proof. reflexivity. Qed.

Lemma log_resetTargetMouth (c : Controller) :
  log (resetTargetMouth c) =
  log c ++ match target c with Some t => [ResetMouth t] | None => [] end.
Proof.
  unfold resetTargetMouth. destruct (target c); simpl; [reflexivity|].
  now rewrite app_nil_r.
Qed.

Lemma scheduled_resetTargetMouth (c : Controller) :
  scheduled (resetTargetMouth c) = scheduled c.
Proof. unfold resetTargetMouth. destruct (target c); reflexivity. Qed.

Lemma consumeFrame_log (l : Loop) (time : num) (c : Controller) :
  log (snd (consumeFrame l time c)) = log c ++ consumeCalls l time c.
Proof.
  unfold consumeFrame, consumeCalls, applyMouthShape.
  destruct (currentFrame l) as [f|]; simpl.
  - destruct (target c); simpl; [reflexivity | now rewrite app_nil_r].
  - now rewrite app_nil_r.
Qed.

Lemma consumeFrame_fields (l : Loop) (time : num) (c : Controller) :
  let c1 := snd (consumeFrame l time c) in
  target c1 = target c /\ queue c1 = queue c /\ isPlaying c1 = isPlaying c /\
  lastChunkTime c1 = lastChunkTime c /\ scheduled c1 = scheduled c /\
  nextHandle c1 = nextHandle c /\ config c1 = config c /\
  animationTimer c1 = animationTimer c.
Proof.
  unfold consumeFrame, applyMouthShape.
  destruct (currentFrame l); simpl; [destruct (target c) eqn:Et; simpl|];
    repeat split; auto.
Qed.

Lemma consumeCalls_in_unit (l : Loop) (time : num) (c : Controller) :
  regularLoop l = true -> isFin time = true ->
  forallb callWeightInUnit (consumeCalls l time c) = true.
Proof.
  unfold regularLoop, regularFrame, consumeCalls. intros Hl Ht.
  destruct (currentFrame l) as [f|]; [|reflexivity].
  destruct (target c); [|reflexivity].
  rewrite !andb_true_iff in Hl. destruct Hl as [[Hlast Hrem] [[Hw Hd] Hnz]].
  cbn [forallb callWeightInUnit]. rewrite andb_true_r.
  apply clampWeight_in_unit, isFin_not_NaN.
  apply isFin_mul; [|assumption].
  apply isFin_easeInOut, isFin_sub; [apply isFin_ofZ|].
  apply isFin_div; try assumption.
  repeat apply isFin_sub; assumption.
Qed.

Lemma consumeFrame_remaining (l : Loop) (time : num) (c : Controller) :
  fst (consumeFrame l time c) = remainingAfter l time.
Proof. unfold consumeFrame, remainingAfter. now destruct (currentFrame l). Qed.



(** The three ways [animate] ends while the loop is playing. *)
Lemma animate_playing (l : Loop) (time now : num) (c : Controller) :
  isPlaying c = true ->
  animate l time now c =
  let c1 := snd (consumeFrame l time c) in
  let remaining := remainingAfter l time in
  if leb remaining (ofZ 0) then
    match queue c with
    | f :: rest =>
        scheduleAnimate
          {| lastTime := time; frameTimeRemaining := duration f;
             currentFrame := Some f |}
          (with_queue rest c1)
    | [] =>
        if gtb (now - lastChunkTime c)%num GRACE_MS
        then with_isPlaying false (resetTargetMouth c1)
        else
          scheduleAnimate
            {| lastTime := time; frameTimeRemaining := remaining;
               currentFrame := None |}
            c1
    end
  else
    scheduleAnimate
      {| lastTime := time; frameTimeRemaining := remaining;
         currentFrame := currentFrame l |}
      c1.
Proof.
  intros Hp. unfold animate. rewrite Hp. cbn [negb].
  rewrite <- (consumeFrame_remaining l time c).
  destruct (consumeFrame_fields l time c) as (_ & Hq & _ & Hc & _).
  destruct (consumeFrame l time c) as [remaining c1]. cbn [fst snd] in *.
  now rewrite Hq, Hc.
Qed.

(** What [animate] adds to the log. *)
Lemma animate_log (l : Loop) (time now : num) (c : Controller) :
  exists resets,
    log (animate l time now c) =
      log c ++ (if isPlaying c then consumeCalls l time c else []) ++ resets /\
    (resets = [] \/
     exists t, target c = Some t /\ resets = [ResetMouth t]).
Proof.
  destruct (isPlaying c) eqn:Hp.
  - rewrite animate_playing by assumption. cbn zeta.
    destruct (consumeFrame_fields l time c) as (Ht & _).
    pose proof (consumeFrame_log l time c) as Hlog.
    destruct (leb (remainingAfter l time) (ofZ 0)).
    + destruct (queue c) as [|f rest].
      * destruct (gtb _ _).
        -- cbn [with_isPlaying log]. rewrite log_resetTargetMouth, Hlog, Ht.
           rewrite <- app_assoc. eexists; split; [reflexivity|].
           destruct (target c); eauto.
        -- rewrite log_scheduleAnimate, Hlog. exists []. rewrite app_nil_r. auto.
      * rewrite log_scheduleAnimate. cbn [with_queue log]. rewrite Hlog.
        exists []. rewrite app_nil_r. auto.
    + rewrite log_scheduleAnimate, Hlog. exists []. rewrite app_nil_r. auto.
  - unfold animate. rewrite Hp. exists []. simpl. rewrite app_nil_r. auto.
Qed.

(** One tick of the playback loop.  Every call of [setMouthShape] made by
    [animate] passes a weight within [[0,1]], whatever the progress of the
    frame (overrun included), provided the held frame has a finite weight
    and a finite duration other than zero and the times are finite. *)
Lemma animate_weights_in_unit (l : Loop) (time now : num) (c : Controller) :
  regularLoop l = true -> isFin time = true ->
  exists new,
    log (animate l time now c) = log c ++ new /\
    forallb callWeightInUnit new = true.
Proof.
  intros Hl Ht.
  destruct (animate_log l time now c) as (resets & Hlog & Hres).
  eexists; split; [exact Hlog|].
  rewrite forallb_app. apply andb_true_intro; split.
  - destruct (isPlaying c); [|reflexivity].
    now apply consumeCalls_in_unit.
  - destruct Hres as [-> | (t & _ & ->)]; reflexivity.
Qed.

(** A frame that has overrun its duration: 100 ms into a frame of 80 ms
    the progress is 1.25, the raw eased weight 0.7 * (1 - 0.125) and the
    weight passed is within [[0,1]]. *)
Example overrun_is_clamped :
  log (animate demoLoop (ofZ 116) (ofZ 1116) demoHolding) =
    [SetMouthShape 7%nat A (ofQ (49 # 80))] /\
  in_unit (ofQ (49 # 80)) = true.
Proof. vm_compute. split; reflexivity. Qed.




(** The scenario of the specification: one short frame, then time passes
    beyond the frame and the grace window; [resetMouth] has been called
    and the loop is inactive. *)
Example grace_window_scenario :
  let c := runFrame (ofZ 1600) (ofZ 2600) demoHolding in
  isPlaying c = false /\ scheduled c = [] /\ resetCalls (log c) = [ResetMouth 7%nat].
Proof. vm_compute. repeat split; reflexivity. Qed.

(* ===================================================================== *)
(** ** Detaching the target and operating without one *)
(* ===================================================================== *)

Lemma stop_fields (c : Controller) :
  isPlaying (stop c) = false /\ queue (stop c) = [] /\ target (stop c) = target c /\
  log (stop c) = log c ++ match target c with Some t => [ResetMouth t] | None => [] end.
Proof.
  unfold stop.
  set (c2 := match animationTimer (with_isPlaying false c) with
             | Some h => _ | None => _ end).
  assert (H2 : target c2 = target c /\ log c2 = log c /\ isPlaying c2 = false).
  { subst c2. cbn [animationTimer with_isPlaying].
    destruct (animationTimer c) as [h|]; [destruct (Nat.eqb h 0)|]; auto. }
  destruct H2 as (Ht & Hl & Hp).
  unfold resetTargetMouth. cbn [with_queue target].
  rewrite Ht. destruct (target c); cbn; rewrite ?Hl, ?app_nil_r; auto.
Qed.

(** After [stop()] the callback named by [animationTimer] no longer waits. *)
Lemma stop_cancels (c : Controller) (h : nat) (l : Loop) :
  animationTimer c = Some h -> h <> 0%nat -> ~ In (h, l) (scheduled (stop c)).
Proof.
  intros Hh Hnz Hin. unfold stop in Hin.
  cbn [animationTimer with_isPlaying] in Hin. rewrite Hh in Hin.
  destruct (Nat.eqb_spec h 0) as [|_]; [contradiction|].
  rewrite scheduled_resetTargetMouth in Hin.
  cbn [with_queue with_animationTimer cancelAnimationFrame with_scheduled scheduled] in Hin.
  apply List.filter_In in Hin. destruct Hin as [_ Hin]. cbn [fst] in Hin.
  now rewrite Nat.eqb_refl in Hin.
Qed.

(** C1, on the code.  [setTarget(null)] stops playback and empties the
    queue, but makes no call at all on a target: the field [target] is
    cleared before [stop()] runs, so the [resetMouth()] of [stop()] finds no
    target.  In particular, on the playing controller [demoHolding], whose
    target is 7, no [resetMouth] reaches target 7. *)
Theorem setTarget_null_makes_no_call :
  (forall c : Controller,
     let c' := setTarget None c in
     target c' = None /\ isPlaying c' = false /\ queue c' = [] /\
     log c' = log c) /\
  (target demoHolding = Some 7%nat /\ isPlaying demoHolding = true /\
   log (setTarget None demoHolding) = [] /\
   scheduled (setTarget None demoHolding) = []).
Proof.
  split.
  - intros c c'. subst c'. unfold setTarget.
    destruct (stop_fields (with_target None c)) as (Hp & Hq & Ht & Hl).
    cbn [with_target target log] in Ht, Hl. rewrite app_nil_r in Hl. auto.
  - vm_compute. auto.
Qed.

Lemma processChunk_without_target (rnd : nat -> Z) (now perfNow : num)
    (content : jsstring) (c : Controller) :
  target c = None -> processChunk rnd now perfNow content c = c.
Proof.
  intros Ht. unfold processChunk. rewrite Ht.
  rewrite bool_decide_eq_false_2 by (intros [? ?]; discriminate).
  now rewrite orb_true_r.
Qed.

Lemma processChunkWithPhonemes_without_target (rnd : nat -> Z) (now perfNow : num)
    (content : jsstring) (phonemes : option (list jsstring)) (c : Controller) :
  target c = None -> processChunkWithPhonemes rnd now perfNow content phonemes c = c.
Proof.
  intros Ht. unfold processChunkWithPhonemes. rewrite Ht.
  rewrite bool_decide_eq_false_2 by (intros [? ?]; discriminate).
  now destruct (enabled (config c)).
Qed.

Lemma processChunk_disabled (rnd : nat -> Z) (now perfNow : num)
    (content : jsstring) (phonemes : option (list jsstring)) (c : Controller) :
  enabled (config c) = false ->
  processChunk rnd now perfNow content c = c /\
  processChunkWithPhonemes rnd now perfNow content phonemes c = c.
Proof.
  intros He. unfold processChunk, processChunkWithPhonemes. now rewrite He.
Qed.

(** Without a target and with nothing queued or running, [stop()] changes
    nothing. *)
Lemma stop_idle_without_target (c : Controller) :
  target c = None -> queue c = [] -> isPlaying c = false ->
  animationTimer c = None -> stop c = c.
Proof.
  destruct c as [t cfg q p a lc s n lg]. cbn. intros -> -> -> ->. reflexivity.
Qed.

(** C7, on the code.  On the fresh controller, which has no target,
    [onComplete()] is not a no-op: it puts the closing frame in the queue,
    and the frame stays there. *)
Theorem onComplete_without_target_enqueues :
  target initial = None /\
  queue (onComplete initial) =
    [ {| phoneme := closed; weight := ofZ 0; duration := ofZ 100 |} ] /\
  onComplete initial <> initial.
Proof.
  split; [reflexivity|]. split.
  - vm_compute. reflexivity.
  - intros H. apply (f_equal queue) in H. discriminate H.
Qed.

(* ===================================================================== *)
(** ** The heuristic path: text to frames *)
(* ===================================================================== *)

(** [runs] is the decomposition into maximal runs: the runs written out
    give the list back, no run is empty and two neighbours differ. *)
Lemma runsFrom_expand (p : Phoneme) (n : nat) (ps : list Phoneme) :
  flat_map (fun r => replicate (snd r) (fst r)) (runsFrom p n ps) =
  replicate n p ++ ps.
Proof.
  revert p n. induction ps as [|q ps IH]; intros p n; cbn [runsFrom].
  - cbn. now rewrite app_nil_r.
  - case_bool_decide as Hq.
    + subst q. rewrite IH. cbn [replicate].
      change (p :: ps) with ([p] ++ ps). rewrite app_assoc. f_equal.
      clear. induction n as [|n IHn]; cbn; [reflexivity | now rewrite <- IHn].
    + cbn [flat_map fst snd]. rewrite IH. reflexivity.
Qed.

Lemma runs_expand (ps : list Phoneme) :
  flat_map (fun r => replicate (snd r) (fst r)) (runs ps) = ps.
Proof. destruct ps as [|p ps]; [reflexivity|]. apply (runsFrom_expand p 1). Qed.
















Example merge_example :
  textToFrames DEFAULT_CONFIG (constRnd 0) (lit "aa, ei") =
  [ {| phoneme := A; weight := ofQ (7 # 10); duration := ofZ 160 |};
    {| phoneme := closed; weight := ofQ (1 # 10); duration := ofZ 160 |};
    {| phoneme := E; weight := ofQ (7 # 10); duration := ofZ 80 |};
    {| phoneme := I; weight := ofQ (7 # 10); duration := ofZ 80 |} ].
Proof. vm_compute. reflexivity. Qed.

(** The hash of an ideograph is its code modulo 100. *)
Lemma ideograph_hash (code : Z) :
  0x4e00 <= code <= 0x9fff -> Z.rem (sar (code * 7 + code) 3) 100 = code mod 100.
Proof.
  intros Hc. unfold sar, toInt32.
  rewrite (Z.mod_small (code * 7 + code)) by lia.
  destruct (Z.ltb_spec (code * 7 + code) (2 ^ 31)) as [_|]; [|lia].
  change (3 mod 32) with 3. rewrite Z.shiftr_div_pow2 by lia.
  replace (code * 7 + code) with (code * 2 ^ 3) by lia.
  rewrite Z.div_mul by lia. apply Z.rem_mod_nonneg; lia.
Qed.

(** The draw of [Math.random] always selects one of the five vowels. *)
Lemma random_vowel_defined (m : Z) :
  exists p, array_get vowels (Math_floor (Math_random m * ofZ 5)%num) = Some p /\
            isVocalic p = true.
Proof.
  unfold Math_random, ofZ, ofQ. cbn [mul Math_floor]. unfold ofZ, ofQ, array_get.
  set (r := (Q2Qc ((m mod 2 ^ 53) # 2 ^ 53) * Q2Qc (inject_Z 5))%Qc).
  assert (Hr : 0 <= Qfloor r < 5).
  { assert (Hq : (this r == ((m mod 2 ^ 53) * 5 # 2 ^ 53))%Q).
    { subst r. unfold Qcmult, Q2Qc. cbn [this]. rewrite !Qred_correct.
      unfold Qeq, Qmult, inject_Z. cbn [Qnum Qden]. lia. }
    rewrite Hq. pose proof (Z.mod_pos_bound m (2 ^ 53) eq_refl) as Hm.
    unfold Qfloor. split.
    - apply Z.div_pos; lia.
    - apply Z.div_lt_upper_bound; lia. }
  set (k := Qfloor r) in *.
  assert (Hi : Qeq_bool (Q2Qc (inject_Z k)) (inject_Z (Qfloor (Q2Qc (inject_Z k)))) = true).
  { apply Qeq_bool_iff. unfold Q2Qc. cbn [this].
    rewrite Qred_correct, Qfloor_Z. reflexivity. }
  rewrite Hi. cbn [andb].
  assert (Hk : Qfloor (Q2Qc (inject_Z k)) = k).
  { unfold Q2Qc. cbn [this]. now rewrite Qred_correct, Qfloor_Z. }
  rewrite Hk. destruct (Z.leb_spec 0 k) as [_|]; [|lia].
  assert (Hcases : k = 0 \/ k = 1 \/ k = 2 \/ k = 3 \/ k = 4) by lia.
  destruct Hcases as [-> | [-> | [-> | [-> | ->]]]]; cbn; eauto.
Qed.

(** The three rules of the heuristic: an ideograph gets its phoneme from
    its code modulo 100, a character of the punctuation class is closed, a
    vowel letter is its vowel. *)
Lemma getPhonemeForChar_ideograph (m code : Z) (rest : jsstring) :
  0x4e00 <= code <= 0x9fff ->
  getPhonemeForChar m (code :: rest) =
  (let hash := code mod 100 in
   if hash <? 25 then A
   else if hash <? 45 then I
   else if hash <? 60 then E
   else if hash <? 75 then O
   else if hash <? 90 then U
   else N,
   false).
Proof.
  intros Hc. unfold getPhonemeForChar.
  destruct (Z.ltb_spec code 0x4e00); [lia|].
  destruct (Z.gtb_spec code 0x9fff); [lia|]. cbn [orb].
  rewrite ideograph_hash by assumption. cbn zeta.
  repeat match goal with |- context [if ?b then _ else _] => destruct b end;
    reflexivity.
Qed.

Lemma getPhonemeForChar_punctuation (m code : Z) (rest : jsstring) :
  (code <? 0x4e00) || (code >? 0x9fff) = true ->
  punct_test (code :: rest) = true ->
  getPhonemeForChar m (code :: rest) = (closed, false).
Proof. intros Hc Hp. unfold getPhonemeForChar. now rewrite Hc, Hp. Qed.

Example getPhonemeForChar_vowel_letters (m : Z) :
  map (getPhonemeForChar m) (chars (lit "aeiouAEIOU")) =
  [(A, false); (E, false); (I, false); (O, false); (U, false);
   (A, false); (E, false); (I, false); (O, false); (U, false)].
Proof. reflexivity. Qed.

Lemma getPhonemeForChar_fixed (m1 m2 : Z) (char : jsstring) :
  isFixedChar char = true ->
  getPhonemeForChar m1 char = getPhonemeForChar m2 char /\
  snd (getPhonemeForChar m1 char) = false.
Proof.
  unfold isFixedChar, getPhonemeForChar.
  destruct char as [|code rest]; [auto|].
  destruct ((code <? 0x4e00) || (code >? 0x9fff)); cbn [negb orb].
  - destruct (punct_test (code :: rest)); [auto|]. cbn [orb].
    intros ->. auto.
  - intros _. repeat match goal with |- context [if ?b then _ else _] => destruct b end; auto.
Qed.

Lemma textToFrames_loop_fixed (config : LipSyncConfig) (rnd1 rnd2 : nat -> Z)
    (cs : list jsstring) :
  forallb isFixedChar cs = true ->
  forall (i1 i2 : nat) (frames : list LipFrame),
    textToFrames_loop config rnd1 i1 frames cs =
    textToFrames_loop config rnd2 i2 frames cs.
Proof.
  induction cs as [|char cs IH]; intros Hcs i1 i2 frames; [reflexivity|].
  cbn [forallb] in Hcs. apply andb_prop in Hcs. destruct Hcs as [Hc Hcs].
  cbn [textToFrames_loop].
  destruct (getPhonemeForChar_fixed (rnd1 i1) (rnd2 i2) char Hc) as [Heq Hu1].
  rewrite <- Heq.
  destruct (getPhonemeForChar (rnd1 i1) char) as [p used]. cbn [snd] in Hu1.
  subst used. now apply IH.
Qed.

(** C3, as amended.  For a text made of ideographs of U+4E00..U+9FFF,
    characters of the punctuation class and vowel letters, the frames do
    not depend on the draws of [Math.random]: two runs of [processChunk]
    on the same controller give the same result. *)
Theorem processChunk_deterministic_on_fixed_chars
    (rnd1 rnd2 : nat -> Z) (now perfNow : num) (content : jsstring)
    (c : Controller) :
  forallb isFixedChar (chars content) = true ->
  textToFrames (config c) rnd1 content = textToFrames (config c) rnd2 content /\
  processChunk rnd1 now perfNow content c = processChunk rnd2 now perfNow content c.
Proof.
  intros Hfixed.
  assert (Hframes : forall cfg, textToFrames cfg rnd1 content = textToFrames cfg rnd2 content).
  { intros cfg. unfold textToFrames. now apply textToFrames_loop_fixed. }
  split; [apply Hframes|].
  unfold processChunk.
  destruct (negb (enabled (config c)) || negb (bool_decide (is_Some (target c))));
    [reflexivity|].
  now rewrite Hframes.
Qed.

Lemma processChunk_deterministic_on_fixed_chars_witness :
  let content := ni_hao ++ lit ", aeiou!" in
  let c := setTarget (Some 7%nat) initial in
  textToFrames (config c) (constRnd 0) content =
    textToFrames (config c) (constRnd (2 ^ 52)) content /\
  processChunk (constRnd 0) (ofZ 1000) (ofZ 0) content c =
    processChunk (constRnd (2 ^ 52)) (ofZ 1000) (ofZ 0) content c.
Proof.
  apply (processChunk_deterministic_on_fixed_chars
           (constRnd 0) (constRnd (2 ^ 52)) (ofZ 1000) (ofZ 0)
           (ni_hao ++ lit ", aeiou!") (setTarget (Some 7%nat) initial)).
  reflexivity.
Defined.

(** C3, as stated, fails.  A consonant receives a vowel chosen by
    [Math.random]: the text "b" gives a frame of A when the draw is 0 and
    a frame of I when the draw is 1/2. *)
Lemma consonant_phoneme_is_random :
  let c := setTarget (Some 7%nat) initial in
  map phoneme (textToFrames (config c) (constRnd 0) (lit "b")) = [A] /\
  map phoneme (textToFrames (config c) (constRnd (2 ^ 52)) (lit "b")) = [I] /\
  processChunk (constRnd 0) (ofZ 1000) (ofZ 0) (lit "b") c <>
    processChunk (constRnd (2 ^ 52)) (ofZ 1000) (ofZ 0) (lit "b") c.
Proof.
  split; [vm_compute; reflexivity|]. split; [vm_compute; reflexivity|].
  intros H. apply (f_equal (fun c => map phoneme (queue c))) in H.
  vm_compute in H. discriminate H.
Qed.

(* ===================================================================== *)
(** ** The preferred path: phoneme tags to frames *)
(* ===================================================================== *)

Lemma enqueueAndPlay_queue (frames : list LipFrame) (perfNow : num) (c : Controller) :
  queue (enqueueAndPlay frames perfNow c) = queue c ++ frames.
Proof.
  unfold enqueueAndPlay, startPlayback. cbn [with_queue isPlaying].
  destruct (isPlaying c); reflexivity.
Qed.

(** A tag is silent exactly when its phoneme is not one of the vowels. *)
Lemma classifyPhoneme_silent (tag : jsstring) :
  snd (classifyPhoneme tag) = negb (isVocalic (fst (classifyPhoneme tag))).
Proof.
  unfold classifyPhoneme.
  destruct (units_eqb (toUpperCase tag) (lit "CLOSED") || units_eqb tag (lit "closed"));
    [reflexivity|].
  destruct (units_eqb (toUpperCase tag) (lit "N")); [reflexivity|].
  destruct (existsb _ _) eqn:Hex; [|reflexivity].
  apply existsb_exists in Hex. destruct Hex as (x & Hin & Hx).
  apply bool_decide_eq_true in Hx. rewrite Hx.
  cbn [In] in Hin.
  destruct Hin as [<- | [<- | [<- | [<- | [<- | []]]]]]; reflexivity.
Qed.

Example classifyPhoneme_tags :
  map classifyPhoneme
    [lit "A"; lit "E"; lit "I"; lit "O"; lit "U"; lit "N"; lit "closed";
     lit "a"; lit "n"; lit "CLOSED"; lit "x"] =
  [(A, false); (E, false); (I, false); (O, false); (U, false); (N, true);
   (closed, true); (A, false); (N, true); (closed, true); (A, false)].
Proof. reflexivity. Qed.

Lemma phonemesToFrames_spec (config : LipSyncConfig) (phonemes : list jsstring)
    (textLength : nat) :
  Forall2
    (fun tag f =>
       phoneme f = fst (classifyPhoneme tag) /\
       duration f =
         Math_max (charDuration config)
           ((ofNat textLength * charDuration config) / ofNat (length phonemes))%num /\
       weight f =
         if isVocalic (phoneme f) then speakingWeight config else ofQ (1 # 10))
    phonemes (phonemesToFrames config phonemes textLength).
Proof.
  unfold phonemesToFrames.
  generalize (Math_max (charDuration config)
    ((ofNat textLength * charDuration config) / ofNat (length phonemes))%num).
  intros avg. induction phonemes as [|tag tags IH]; constructor; [|exact IH].
  pose proof (classifyPhoneme_silent tag) as Hs.
  destruct (classifyPhoneme tag) as [p isSilent]. cbn [fst snd] in *.
  cbn [phoneme duration weight]. subst isSilent.
  destruct (isVocalic p); auto.
Qed.

(** C4.  Given a non-empty array of phoneme tags, on a controller that is
    enabled and has a target, [processChunkWithPhonemes] appends one frame
    per tag; each frame has the phoneme of its tag, the duration
    [max(charDuration, L * charDuration / count)] where [L] is the length
    of the text, and the weight [speakingWeight] if its phoneme is one of
    A, E, I, O, U and 0.1 if it is N or closed.  In particular the text
    "你好" with the tags A and N gives, under the default configuration,
    the frames (A, 0.7, 80) and (N, 0.1, 80). *)
Theorem processChunkWithPhonemes_frames :
  (forall (rnd : nat -> Z) (now perfNow : num) (content : jsstring)
          (phonemes : list jsstring) (c : Controller),
     enabled (config c) = true -> is_Some (target c) -> phonemes <> [] ->
     exists frames,
       queue (processChunkWithPhonemes rnd now perfNow content (Some phonemes) c) =
         queue c ++ frames /\
       length frames = length phonemes /\
       Forall2
         (fun tag f =>
            phoneme f = fst (classifyPhoneme tag) /\
            duration f =
              Math_max (charDuration (config c))
                ((ofNat (length content) * charDuration (config c))
                 / ofNat (length phonemes))%num /\
            weight f =
              if isVocalic (phoneme f) then speakingWeight (config c)
              else ofQ (1 # 10))
         phonemes frames) /\
  (forall (rnd : nat -> Z) (now perfNow : num),
     charDuration DEFAULT_CONFIG = ofZ 80 /\
     queue (processChunkWithPhonemes rnd now perfNow ni_hao
              (Some [lit "A"; lit "N"]) (setTarget (Some 7%nat) initial)) =
     [ {| phoneme := A; weight := ofQ (7 # 10); duration := ofZ 80 |};
       {| phoneme := N; weight := ofQ (1 # 10); duration := ofZ 80 |} ]).
Proof.
  split.
  - intros rnd now perfNow content phonemes c He Ht Hne.
    exists (phonemesToFrames (config c) phonemes (length content)).
    split; [|split].
    + unfold processChunkWithPhonemes. rewrite He. cbn [negb].
      rewrite bool_decide_eq_true_2 by assumption. cbn [negb].
      destruct phonemes as [|p ps]; [congruence|].
      rewrite enqueueAndPlay_queue. reflexivity.
    + unfold phonemesToFrames. now rewrite length_map.
    + apply phonemesToFrames_spec.
  - intros rnd now perfNow. split; [reflexivity|].
    vm_compute. reflexivity.
Qed.

Lemma processChunkWithPhonemes_frames_witness :
  exists frames,
    queue (processChunkWithPhonemes (constRnd 0) (ofZ 1000) (ofZ 0) (lit "hello")
             (Some [lit "E"; lit "closed"]) (setTarget (Some 7%nat) initial)) =
      queue (setTarget (Some 7%nat) initial) ++ frames /\
    length frames = 2%nat /\
    Forall2
      (fun tag f =>
         phoneme f = fst (classifyPhoneme tag) /\
         duration f =
           Math_max (ofZ 80) ((ofNat 5 * ofZ 80) / ofNat 2)%num /\
         weight f = if isVocalic (phoneme f) then ofQ (7 # 10) else ofQ (1 # 10))
      [lit "E"; lit "closed"] frames.
Proof.
  apply (proj1 processChunkWithPhonemes_frames (constRnd 0) (ofZ 1000) (ofZ 0)
           (lit "hello") [lit "E"; lit "closed"] (setTarget (Some 7%nat) initial)).
  - reflexivity.
  - exists 7%nat. reflexivity.
  - discriminate.
Defined.

(* ===================================================================== *)
(** ** Mouth-shape adapters: one shape at a time *)
(* ===================================================================== *)

Lemma nonzero_zero : nonzero (ofZ 0) = false.
Proof. reflexivity. Qed.

Lemma vrm_weightOf_setExpression (s n : jsstring) (w : num) (a : VRM.Adapter) :
  VRM.weightOf n (VRM.setExpression s w a) =
  if decide (s = n) then w else VRM.weightOf n a.
Proof.
  unfold VRM.weightOf, VRM.setExpression. cbn [VRM.expressions].
  rewrite lookup_insert. now case_decide.
Qed.

Lemma vrm_setShapeOf_shapeMap (p : Phoneme) (w : num) (a : VRM.Adapter) :
  VRM.shapeMap (VRM.setShapeOf p w a) = VRM.shapeMap a /\
  VRM.lastPhoneme (VRM.setShapeOf p w a) = VRM.lastPhoneme a.
Proof. unfold VRM.setShapeOf. now destruct (VRM.shapeMap a p). Qed.

Lemma vrm_setShapeOf_Some (p : Phoneme) (w : num) (a : VRM.Adapter) (s : jsstring) :
  VRM.shapeMap a p = Some s -> VRM.setShapeOf p w a = VRM.setExpression s w a.
Proof. unfold VRM.setShapeOf. now intros ->. Qed.

Lemma vrm_setShapeOf_None (p : Phoneme) (w : num) (a : VRM.Adapter) :
  VRM.shapeMap a p = None -> VRM.setShapeOf p w a = a.
Proof. unfold VRM.setShapeOf. now intros ->. Qed.

(** Once the shape of [lastPhoneme] is zeroed, every controlled shape is
    at zero. *)
Lemma vrm_zero_last (a : VRM.Adapter) :
  vrmInv a -> vrmAtRest (VRM.setShapeOf (VRM.lastPhoneme a) (ofZ 0) a).
Proof.
  intros [_ Hinv] p n.
  destruct (VRM.shapeMap a (VRM.lastPhoneme a)) as [s|] eqn:Hs.
  - rewrite (vrm_setShapeOf_Some _ _ _ _ Hs). intros Hp.
    change (VRM.shapeMap a p = Some n) in Hp.
    rewrite vrm_weightOf_setExpression. case_decide as Hn; [reflexivity|].
    destruct (nonzero (VRM.weightOf n a)) eqn:Hnz; [|reflexivity].
    specialize (Hinv p n Hp Hnz). congruence.
  - rewrite (vrm_setShapeOf_None _ _ _ Hs). intros Hp.
    destruct (nonzero (VRM.weightOf n a)) eqn:Hnz; [|reflexivity].
    specialize (Hinv p n Hp Hnz). congruence.
Qed.

Lemma vrm_closed_at_rest (a : VRM.Adapter) :
  vrmInv a -> VRM.lastPhoneme a = closed -> vrmAtRest a.
Proof.
  intros [Hc Hinv] Hl p n Hp.
  destruct (nonzero (VRM.weightOf n a)) eqn:Hnz; [|reflexivity].
  specialize (Hinv p n Hp Hnz). congruence.
Qed.

(** Setting the shape of [p] on an adapter that is at rest, or whose last
    phoneme is [p] already, leaves at most the shape of [p] away from 0. *)
Lemma vrm_apply_shape (p : Phoneme) (w : num) (a : VRM.Adapter) :
  VRM.shapeMap a closed = None ->
  (forall q n, VRM.shapeMap a q = Some n -> nonzero (VRM.weightOf n a) = true ->
               VRM.shapeMap a p = Some n) ->
  vrmInv (VRM.with_lastPhoneme p (VRM.setShapeOf p w a)).
Proof.
  intros Hc Hone.
  destruct (VRM.shapeMap a p) as [s|] eqn:Hs.
  - rewrite (vrm_setShapeOf_Some _ _ _ _ Hs). split; [exact Hc|].
    intros q n Hq.
    change (VRM.shapeMap a q = Some n) in Hq.
    change (VRM.weightOf n (VRM.with_lastPhoneme p (VRM.setExpression s w a)))
      with (VRM.weightOf n (VRM.setExpression s w a)).
    change (VRM.shapeMap (VRM.with_lastPhoneme p (VRM.setExpression s w a))
              (VRM.lastPhoneme (VRM.with_lastPhoneme p (VRM.setExpression s w a))))
      with (VRM.shapeMap a p).
    rewrite vrm_weightOf_setExpression. case_decide as Hn; [congruence|].
    intros Hnz. rewrite Hs. exact (Hone q n Hq Hnz).
  - rewrite (vrm_setShapeOf_None _ _ _ Hs). split; [exact Hc|].
    intros q n Hq Hnz. cbn [VRM.with_lastPhoneme VRM.shapeMap VRM.lastPhoneme].
    rewrite Hs. exact (Hone q n Hq Hnz).
Qed.

Lemma vrmAtRest_one (a : VRM.Adapter) (p : Phoneme) :
  vrmAtRest a ->
  forall q n, VRM.shapeMap a q = Some n -> nonzero (VRM.weightOf n a) = true ->
              VRM.shapeMap a p = Some n.
Proof. intros Hr q n Hq Hnz. rewrite (Hr q n Hq) in Hnz. discriminate. Qed.

Lemma vrm_setMouthShape_inv (p : Phoneme) (w : num) (a : VRM.Adapter) :
  vrmInv a -> vrmInv (VRM.setMouthShape p w a).
Proof.
  intros Hinv. pose proof Hinv as [Hclosed Hone]. unfold VRM.setMouthShape.
  destruct (decide (VRM.lastPhoneme a = p)) as [Hl | Hl].
  - rewrite (bool_decide_eq_false_2 (VRM.lastPhoneme a ≠ p)) by tauto.
    cbn [andb]. apply vrm_apply_shape; [exact Hclosed|].
    intros q n Hq Hnz. rewrite <- Hl. exact (Hone q n Hq Hnz).
  - rewrite (bool_decide_eq_true_2 (VRM.lastPhoneme a ≠ p)) by assumption.
    cbn [andb]. destruct (decide (VRM.lastPhoneme a = closed)) as [Hc | Hc].
    + rewrite bool_decide_eq_false_2 by tauto.
      apply vrm_apply_shape; [exact Hclosed|].
      apply vrmAtRest_one. now apply vrm_closed_at_rest.
    + rewrite bool_decide_eq_true_2 by assumption.
      apply vrm_apply_shape.
      * now rewrite (proj1 (vrm_setShapeOf_shapeMap _ _ a)).
      * apply vrmAtRest_one. now apply vrm_zero_last.
Qed.

Lemma vrm_resetMouth_inv (a : VRM.Adapter) : vrmInv a -> vrmInv (VRM.resetMouth a).
Proof.
  intros Hinv. unfold VRM.resetMouth.
  assert (Hr : vrmAtRest
            (if bool_decide (VRM.lastPhoneme a ≠ closed)
             then VRM.setShapeOf (VRM.lastPhoneme a) (ofZ 0) a else a)).
  { case_bool_decide as Hc.
    - now apply vrm_zero_last.
    - apply vrm_closed_at_rest; [assumption|].
      destruct (decide (VRM.lastPhoneme a = closed)); tauto. }
  assert (Hm : VRM.shapeMap
            (if bool_decide (VRM.lastPhoneme a ≠ closed)
             then VRM.setShapeOf (VRM.lastPhoneme a) (ofZ 0) a else a) closed = None).
  { case_bool_decide; [rewrite (proj1 (vrm_setShapeOf_shapeMap _ _ a))|];
      apply (proj1 Hinv). }
  split; [exact Hm|].
  intros p n Hp Hnz. exfalso.
  cbn [VRM.with_lastPhoneme VRM.shapeMap] in Hp.
  unfold VRM.weightOf in Hnz. cbn [VRM.with_lastPhoneme VRM.expressions] in Hnz.
  specialize (Hr p n Hp). unfold VRM.weightOf in Hr. congruence.
Qed.

Lemma vrm_run_inv (ks : list TargetCall) (a : VRM.Adapter) :
  vrmInv a -> vrmInv (VRM.run ks a).
Proof.
  revert a. induction ks as [|k ks IH]; intros a Hinv; [exact Hinv|].
  cbn [VRM.run fold_left]. apply IH.
  destruct k; [now apply vrm_setMouthShape_inv | now apply vrm_resetMouth_inv].
Qed.

Lemma vrmInv_exclusive (a : VRM.Adapter) : vrmInv a -> vrmExclusive a.
Proof.
  intros [_ Hinv] p1 p2 n1 n2 H1 H2 Hz1 Hz2.
  pose proof (Hinv p1 n1 H1 Hz1). pose proof (Hinv p2 n2 H2 Hz2). congruence.
Qed.

Lemma vrm_created_inv (availableExpressions : list jsstring)
    (weights : gmap jsstring num) :
  vrmAtRest (VRM.createVRMLipSyncAdapter availableExpressions weights) ->
  vrmInv (VRM.createVRMLipSyncAdapter availableExpressions weights).
Proof.
  intros Hr. split; [reflexivity|].
  intros p n Hp Hnz. rewrite (Hr p n Hp) in Hnz. discriminate.
Qed.

Lemma mmd_influenceAt_write (i j : Z) (w : num) (infl : list num) :
  MMD.influenceAt (fst (MMD.writeInfluence j w infl)) i =
  if snd (MMD.writeInfluence j w infl) && (i =? j)
  then Some w
  else MMD.influenceAt infl i.
Proof.
  unfold MMD.writeInfluence.
  destruct (negb (j =? -1)) eqn:Hj; cbn [andb fst snd]; [|reflexivity].
  case_bool_decide as Hsome; cbn [fst snd andb]; [|reflexivity].
  unfold MMD.influenceAt in *.
  destruct (Z.leb_spec 0 j) as [Hj0|]; [|now destruct Hsome].
  apply lookup_lt_is_Some in Hsome.
  destruct (Z.eqb_spec i j) as [->|Hij].
  - destruct (Z.leb_spec 0 j); [|lia]. now apply list_lookup_insert_eq.
  - destruct (Z.leb_spec 0 i); [|reflexivity].
    apply list_lookup_insert_ne. lia.
Qed.

(** Once the influence at [lastIndex] is zeroed, every controlled index
    has influence zero. *)
Lemma mmd_zero_last (a : MMD.Adapter) (p : Phoneme) (v : num) :
  mmdInv a ->
  MMD.influenceAt
    (fst (MMD.writeInfluence (MMD.lastIndex a) (ofZ 0) (MMD.influences a)))
    (MMD.findMorphIndex a p) = Some v ->
  nonzero v = false.
Proof.
  intros Hinv. rewrite mmd_influenceAt_write.
  destruct (snd _ && _) eqn:Hw.
  - intros [= <-]. reflexivity.
  - intros Hv. destruct (nonzero v) eqn:Hnz; [|reflexivity]. exfalso.
    pose proof (Hinv p v Hv Hnz) as Hlast.
    rewrite Hlast, Z.eqb_refl, andb_true_r in Hw.
    rewrite Hlast in Hv. unfold MMD.writeInfluence in Hw.
    rewrite Hv in Hw. rewrite bool_decide_eq_true_2 in Hw by eauto.
    destruct (Z.eqb_spec (MMD.lastIndex a) (-1)) as [Hm|]; [|discriminate].
    rewrite Hm in Hv. discriminate.
Qed.

Lemma mmd_setMouthShape_inv (p : Phoneme) (w : num) (a : MMD.Adapter) :
  mmdInv a -> mmdInv (MMD.setMouthShape p w a).
Proof.
  intros Hinv q v. unfold MMD.setMouthShape.
  pose proof (mmd_influenceAt_write (MMD.findMorphIndex a q) (MMD.findMorphIndex a p) w
    (fst (MMD.writeInfluence (MMD.lastIndex a) (ofZ 0) (MMD.influences a)))) as Hw.
  destruct (MMD.writeInfluence (MMD.findMorphIndex a p) w _) as [infl2 written].
  cbn [fst snd] in Hw.
  unfold MMD.findMorphIndex. cbn [MMD.dict MMD.influences MMD.lastIndex].
  change (MMD.findMorphIndex_loop (MMD.dict a) (MMD.MMD_MOUTH_SHAPES q))
    with (MMD.findMorphIndex a q).
  change (MMD.findMorphIndex_loop (MMD.dict a) (MMD.MMD_MOUTH_SHAPES p))
    with (MMD.findMorphIndex a p).
  rewrite Hw. destruct written; cbn [andb].
  - destruct (Z.eqb_spec (MMD.findMorphIndex a q) (MMD.findMorphIndex a p)) as [He|_];
      [auto|].
    intros Hv Hnz. rewrite (mmd_zero_last a q v Hinv Hv) in Hnz. discriminate.
  - intros Hv Hnz. rewrite (mmd_zero_last a q v Hinv Hv) in Hnz. discriminate.
Qed.

Lemma mmd_resetMouth_inv (a : MMD.Adapter) : mmdInv a -> mmdInv (MMD.resetMouth a).
Proof.
  intros Hinv q v. unfold MMD.resetMouth, MMD.findMorphIndex.
  cbn [MMD.dict MMD.influences MMD.lastIndex].
  change (MMD.findMorphIndex_loop (MMD.dict a) (MMD.MMD_MOUTH_SHAPES q))
    with (MMD.findMorphIndex a q).
  intros Hv Hnz. rewrite (mmd_zero_last a q v Hinv Hv) in Hnz. discriminate.
Qed.

Lemma mmd_run_inv (ks : list TargetCall) (a : MMD.Adapter) :
  mmdInv a -> mmdInv (MMD.run ks a).
Proof.
  revert a. induction ks as [|k ks IH]; intros a Hinv; [exact Hinv|].
  cbn [MMD.run fold_left]. apply IH.
  destruct k; [now apply mmd_setMouthShape_inv | now apply mmd_resetMouth_inv].
Qed.

Lemma mmdInv_exclusive (a : MMD.Adapter) : mmdInv a -> mmdExclusive a.
Proof.
  intros Hinv p1 p2 w1 w2 H1 H2 Hz1 Hz2.
  rewrite (Hinv p1 w1 H1 Hz1), (Hinv p2 w2 H2 Hz2). reflexivity.
Qed.

(** C8.  Starting from a freshly created adapter whose mouth shapes are at
    rest, after any sequence of [setMouthShape] and [resetMouth] calls at
    most one expression controlled by the VRM adapter, and at most one
    morph index controlled by the MMD adapter, has a weight other than
    zero. *)
Theorem mouth_shapes_exclusive
    (availableExpressions : list jsstring) (weights : gmap jsstring num)
    (morphTargetDictionary : option (gmap jsstring Z))
    (morphTargetInfluences : option (list num))
    (vrmCalls mmdCalls : list TargetCall) :
  vrmAtRest (VRM.createVRMLipSyncAdapter availableExpressions weights) ->
  mmdAtRest (MMD.createMMDLipSyncAdapter morphTargetDictionary morphTargetInfluences) ->
  vrmExclusive
    (VRM.run vrmCalls (VRM.createVRMLipSyncAdapter availableExpressions weights)) /\
  mmdExclusive
    (MMD.run mmdCalls
       (MMD.createMMDLipSyncAdapter morphTargetDictionary morphTargetInfluences)).
Proof.
  intros Hv Hm. split.
  - apply vrmInv_exclusive, vrm_run_inv, vrm_created_inv, Hv.
  - apply mmdInv_exclusive, mmd_run_inv.
    intros p w Hw Hnz. rewrite (Hm p w Hw) in Hnz. discriminate.
Qed.

Lemma mouth_shapes_exclusive_witness :
  vrmExclusive
    (VRM.run demoCalls (VRM.createVRMLipSyncAdapter demoExpressions ∅)) /\
  mmdExclusive
    (MMD.run demoCalls
       (MMD.createMMDLipSyncAdapter (Some demoDict) (Some demoInfluences))).
Proof.
  apply (mouth_shapes_exclusive demoExpressions ∅ (Some demoDict)
           (Some demoInfluences) demoCalls demoCalls).
  - intros p n _. reflexivity.
  - intros p w. destruct p; vm_compute; intros [= <-]; reflexivity.
Defined.

Example vrm_demo_run :
  let a := VRM.run demoCalls (VRM.createVRMLipSyncAdapter demoExpressions ∅) in
  VRM.shapeMap a A = Some (lit "Aa") /\ VRM.shapeMap a I = Some (lit "Ih") /\
  VRM.shapeMap a E = None /\
  VRM.weightOf (lit "Aa") a = ofQ (3 # 10) /\ VRM.weightOf (lit "Ih") a = ofZ 0 /\
  VRM.lastPhoneme a = A.
Proof. vm_compute. repeat split; reflexivity. Qed.

Example mmd_demo_run :
  let a := MMD.run demoCalls
             (MMD.createMMDLipSyncAdapter (Some demoDict) (Some demoInfluences)) in
  MMD.influences a = [ofQ (3 # 10); ofZ 1; ofZ 0] /\ MMD.lastIndex a = 0.
Proof. vm_compute. repeat split; reflexivity. Qed.

(** C9.  For both adapters and in every state, calling [resetMouth()] twice
    leaves the same state (weights or influences, and the last shape
    remembered) as calling it once. *)
Theorem resetMouth_idempotent :
  (forall a : VRM.Adapter, VRM.resetMouth (VRM.resetMouth a) = VRM.resetMouth a) /\
  (forall a : MMD.Adapter, MMD.resetMouth (MMD.resetMouth a) = MMD.resetMouth a).
Proof.
  split; intros a.
  - unfold VRM.resetMouth at 1.
    cbn [VRM.resetMouth VRM.with_lastPhoneme VRM.lastPhoneme].
    rewrite bool_decide_eq_false_2 by (intros H; now apply H).
    unfold VRM.resetMouth, VRM.with_lastPhoneme. reflexivity.
  - unfold MMD.resetMouth at 1.
    cbn [MMD.resetMouth MMD.lastIndex MMD.influences MMD.dict].
    reflexivity.
Qed.

(* ===================================================================== *)
(** ** Renderer registry: dispatch on the model path *)
(* ===================================================================== *)

(** [getFactory] returns the first of the accepting factories. *)
Lemma getFactory_first_accepting (r : RendererRegistry) (modelPath : jsstring) :
  getFactory r modelPath = head (acceptingFactories r modelPath).
Proof.
  unfold getFactory, acceptingFactories. induction r as [|f r IH]; [reflexivity|].
  cbn [List.find List.filter]. destruct (factoryCanHandle f modelPath); [reflexivity|].
  exact IH.
Qed.

(** C2, as amended.  The default registry resolves each of the six paths
    to one factory, by the path alone: Live2D for [scene.model3.json], VRM
    for [model.vrm] and for [model.glb] whatever the file contains (the
    VRM and glTF factories both accept it and the VRM factory is
    registered first), glTF for [model.gltf], FBX for [avatar.fbx] and MMD
    for [char.pmx]; but for [model.glb], one factory only accepts the path.
    The content of a [.glb] file is looked at by the model store, whose
    [loadModel] gives the type vrm exactly when [detectVRMExtension] finds
    a marker, and gltf otherwise. *)
Theorem registry_dispatch_by_path :
  let r := createDefaultRendererRegistry in
  (getFactory r (lit "model.vrm") = Some VRMRendererFactory /\
   getFactory r (lit "model.glb") = Some VRMRendererFactory /\
   getFactory r (lit "model.gltf") = Some GLTFRendererFactory /\
   getFactory r (lit "avatar.fbx") = Some FBXRendererFactory /\
   getFactory r (lit "char.pmx") = Some MMDRendererFactory /\
   getFactory r (lit "scene.model3.json") = Some Live2DRendererFactory) /\
  (acceptingFactories r (lit "model.vrm") = [VRMRendererFactory] /\
   acceptingFactories r (lit "model.glb") = [VRMRendererFactory; GLTFRendererFactory] /\
   acceptingFactories r (lit "model.gltf") = [GLTFRendererFactory] /\
   acceptingFactories r (lit "avatar.fbx") = [FBXRendererFactory] /\
   acceptingFactories r (lit "char.pmx") = [MMDRendererFactory] /\
   acceptingFactories r (lit "scene.model3.json") = [Live2DRendererFactory]) /\
  (forall fetched : option (list Z),
     detectModelType (lit "model.glb") fetched =
     if detectVRMExtension fetched then vrm else gltf) /\
  detectVRMExtension (Some (glbOf vrmJson)) = true /\
  detectVRMExtension (Some (glbOf plainJson)) = false.
Proof.
  cbn zeta. repeat split; try (vm_compute; reflexivity).
Qed.

(** C2, as stated, fails.  A [.glb] file without any VRM marker is still
    resolved to the VRM factory, not to the glTF factory. *)
Lemma plain_glb_resolves_to_vrm_factory :
  detectVRMExtension (Some (glbOf plainJson)) = false /\
  hasVRMMarkers (glbOf plainJson) = false /\
  getFactory createDefaultRendererRegistry (lit "model.glb") = Some VRMRendererFactory /\
  getFactory createDefaultRendererRegistry (lit "model.glb") <> Some GLTFRendererFactory.
Proof.
  repeat split; try (vm_compute; reflexivity).
  vm_compute. discriminate.
Qed.

(* ===================================================================== *)
(** ** Weights along a whole run *)
(* ===================================================================== *)

































Example demoSession_run :
  forallb regularEvent demoSession = true /\
  isPlaying (runEvents demoSession initial) = false /\
  length (log (runEvents demoSession initial)) = 8%nat /\
  resetCalls (log (runEvents demoSession initial)) = [ResetMouth 7%nat].
Proof. vm_compute. repeat split; reflexivity. Qed.

(* ===================================================================== *)
(** ** The playback loop over a run *)
(* ===================================================================== *)

Lemma playbackInv_initial : playbackInv initial.
Proof.
  split; [|discriminate]. repeat split; cbn; try discriminate; auto.
Qed.

Lemma loopInv_scheduleAnimate (l : Loop) (c : Controller) :
  (1 <= nextHandle c)%nat -> isPlaying c = true -> scheduled c = [] ->
  loopInv (scheduleAnimate l c).
Proof.
  intros Hn Hp Hs. unfold scheduleAnimate, requestAnimationFrame.
  repeat split; cbn.
  - lia.
  - intros h [= <-]. lia.
  - rewrite Hs. eauto.
  - congruence.
Qed.

(** [stop()] leaves no callback waiting. *)
Lemma loopInv_stop (c : Controller) :
  loopInv c -> loopInv (stop c) /\ scheduled (stop c) = [].
Proof.
  intros (Hn & Hh & Hplay & Hidle).
  destruct (stop_fields c) as (Hp' & _ & _ & _).
  assert (Hs : scheduled (stop c) = []).
  { unfold stop. rewrite scheduled_resetTargetMouth.
    cbn [with_queue with_isPlaying animationTimer scheduled].
    destruct (isPlaying c) eqn:Hp.
    - destruct (Hplay eq_refl) as (h & l & Ha & Hsch). rewrite Ha.
      destruct (Nat.eqb_spec h 0) as [H0|_]; [now apply Hh in Ha|].
      cbn. rewrite Hsch. cbn. now rewrite Nat.eqb_refl.
    - destruct (animationTimer c) as [h|]; [destruct (Nat.eqb h 0)|];
        cbn; now rewrite (Hidle eq_refl). }
  split; [|exact Hs].
  assert (Hfields : nextHandle (stop c) = nextHandle c /\
                    (animationTimer (stop c) = None \/
                     animationTimer (stop c) = animationTimer c)).
  { clear. destruct c as [t cfg q p a lc s n lg]. unfold stop, resetTargetMouth.
    cbn. destruct a as [h|]; [destruct (Nat.eqb h 0)|]; cbn; destruct t; cbn; auto. }
  destruct Hfields as [Hn' Ha'].
  repeat split.
  - now rewrite Hn'.
  - intros h Hh'. destruct Ha' as [Ha'|Ha']; rewrite Ha' in Hh'; [discriminate|].
    now apply Hh.
  - rewrite Hp'. discriminate.
  - intros _. exact Hs.
Qed.

Lemma playbackInv_stop (c : Controller) : loopInv c -> playbackInv (stop c).
Proof.
  intros H. split; [now apply loopInv_stop|].
  destruct (stop_fields c) as (Hp & _). rewrite Hp. discriminate.
Qed.

Lemma playbackInv_setTarget (t : option TargetId) (c : Controller) :
  playbackInv c -> playbackInv (setTarget t c).
Proof.
  intros [Hloop Ht]. unfold setTarget. destruct t as [t|].
  - split; [exact Hloop|]. cbn. eauto.
  - apply playbackInv_stop. exact Hloop.
Qed.

Lemma playbackInv_enqueueAndPlay (frames : list LipFrame) (perfNow : num)
    (c : Controller) :
  is_Some (target c) -> playbackInv c -> playbackInv (enqueueAndPlay frames perfNow c).
Proof.
  intros Ht [Hloop Hpt]. unfold enqueueAndPlay. cbn [with_queue isPlaying].
  destruct (isPlaying c) eqn:Hp.
  - split; [exact Hloop | intros _; exact Ht].
  - unfold startPlayback. cbn [with_queue isPlaying]. rewrite Hp.
    destruct Hloop as (Hn & Hh & Hplay & Hidle).
    split; [|intros _; exact Ht].
    apply loopInv_scheduleAnimate; cbn; auto.
Qed.

Lemma playbackInv_processChunk (rnd : nat -> Z) (now perfNow : num)
    (content : jsstring) (c : Controller) :
  playbackInv c -> playbackInv (processChunk rnd now perfNow content c).
Proof.
  intros H. unfold processChunk.
  destruct (enabled (config c)); cbn [negb orb]; [|exact H].
  case_bool_decide as Ht; cbn [negb]; [|exact H].
  apply playbackInv_enqueueAndPlay; [exact Ht | exact H].
Qed.

Lemma playbackInv_processChunkWithPhonemes (rnd : nat -> Z) (now perfNow : num)
    (content : jsstring) (phonemes : option (list jsstring)) (c : Controller) :
  playbackInv c ->
  playbackInv (processChunkWithPhonemes rnd now perfNow content phonemes c).
Proof.
  intros H. unfold processChunkWithPhonemes.
  destruct (enabled (config c)); cbn [negb]; [|exact H].
  case_bool_decide as Ht; cbn [negb]; [|exact H].
  apply playbackInv_enqueueAndPlay; [exact Ht | exact H].
Qed.

Lemma target_consumeFrame (l : Loop) (time : num) (c : Controller) :
  target (snd (consumeFrame l time c)) = target c.
Proof. apply consumeFrame_fields. Qed.

(** A tick of the only waiting callback, taken out of the waiting list. *)
Lemma playbackInv_animate (l : Loop) (time now : num) (c : Controller) :
  (1 <= nextHandle c)%nat -> (forall h, animationTimer c = Some h -> h <> 0%nat) ->
  isPlaying c = true -> is_Some (target c) -> scheduled c = [] ->
  playbackInv (animate l time now c).
Proof.
  intros Hn Hh Hp Ht Hs. rewrite animate_playing by assumption. cbn zeta.
  destruct (consumeFrame_fields l time c)
    as (Et & Eq & Ep & _ & Es & En & _ & Ea).
  set (c1 := snd (consumeFrame l time c)) in *.
  assert (Hsched : forall l' c', nextHandle c' = nextHandle c ->
            isPlaying c' = true -> scheduled c' = [] -> target c' = target c ->
            playbackInv (scheduleAnimate l' c')).
  { intros l' c' En' Ep' Es' Et'. split.
    - apply loopInv_scheduleAnimate; congruence.
    - intros _. unfold scheduleAnimate, requestAnimationFrame. cbn. now rewrite Et'. }
  destruct (leb _ _).
  - destruct (queue c) as [|f rest].
    + destruct (gtb _ _).
      * split; [|cbn; discriminate].
        repeat split; cbn; try discriminate.
        -- unfold resetTargetMouth. destruct (target c1); cbn; congruence.
        -- unfold resetTargetMouth. destruct (target c1); cbn; rewrite Ea; apply Hh.
        -- intros _. rewrite scheduled_resetTargetMouth. congruence.
      * apply Hsched; congruence.
    + apply Hsched; cbn; congruence.
  - apply Hsched; congruence.
Qed.

Lemma playbackInv_runFrame (time now : num) (c : Controller) :
  playbackInv c -> playbackInv (runFrame time now c).
Proof.
  intros [(Hn & Hh & Hplay & Hidle) Ht]. unfold runFrame.
  destruct (isPlaying c) eqn:Hp.
  - destruct (Hplay eq_refl) as (h & l & Ha & Hs). rewrite Hs. cbn [fold_left snd].
    apply playbackInv_animate; cbn; auto.
  - rewrite (Hidle eq_refl). cbn [fold_left].
    split; [|cbn; congruence].
    repeat split; cbn; auto; congruence.
Qed.

Lemma playbackInv_applyEvent (e : Event) (c : Controller) :
  playbackInv c -> playbackInv (applyEvent c e).
Proof.
  intros H. destruct e; cbn [applyEvent].
  - now apply playbackInv_setTarget.
  - exact H.
  - now apply playbackInv_processChunk.
  - now apply playbackInv_processChunkWithPhonemes.
  - exact H.
  - apply playbackInv_stop, H.
  - now apply playbackInv_runFrame.
Qed.

Lemma playbackInv_run (es : list Event) (c : Controller) :
  playbackInv c -> playbackInv (runEvents es c).
Proof.
  revert c. induction es as [|e es IH]; intros c H; [exact H|].
  cbn [runEvents fold_left]. apply IH. now apply playbackInv_applyEvent.
Qed.

(** X1.  Along every run from the fresh controller at most one playback
    loop is alive: while [isPlaying] holds a target is registered and
    exactly one animation callback waits, the one [animationTimer] names;
    otherwise no callback waits. *)
Theorem single_playback_loop (es : list Event) :
  let c := runEvents es initial in
  (isPlaying c = true ->
     is_Some (target c) /\
     exists h l, animationTimer c = Some h /\ scheduled c = [(h, l)]) /\
  (isPlaying c = false -> scheduled c = []).
Proof.
  destruct (playbackInv_run es initial playbackInv_initial)
    as [(_ & _ & Hplay & Hidle) Ht].
  cbn zeta. split; [|exact Hidle].
  intros Hp. split; [now apply Ht | now apply Hplay].
Qed.

(** X2.  [stop()] really stops: after it, in any state a run can reach, an
    animation frame changes nothing and makes no call on the target. *)
Theorem no_frame_after_stop (es : list Event) (time now : num) :
  let c := stop (runEvents es initial) in
  runFrame time now c = c.
Proof.
  cbn zeta.
  destruct (playbackInv_run es initial playbackInv_initial) as [Hloop _].
  destruct (loopInv_stop _ Hloop) as [_ Hs].
  unfold runFrame. rewrite Hs. cbn [fold_left].
  destruct (stop (runEvents es initial)); cbn in *. now subst.
Qed.

Lemma animate_calls (l : Loop) (time now : num) (c : Controller) :
  target (animate l time now c) = target c /\
  exists new,
    log (animate l time now c) = log c ++ new /\
    Forall (fun k => target c = Some (callTarget k)) new.
Proof.
  split.
  - destruct (isPlaying c) eqn:Hp; [|unfold animate; now rewrite Hp].
    rewrite animate_playing by assumption. cbn zeta.
    pose proof (target_consumeFrame l time c) as Ht.
    destruct (leb _ _); [destruct (queue c); [destruct (gtb _ _)|]|]; cbn; try exact Ht.
    unfold resetTargetMouth. destruct (target (snd _)) eqn:E; cbn; congruence.
  - destruct (animate_log l time now c) as (resets & Hlog & Hres).
    eexists; split; [exact Hlog|]. apply Forall_app. split.
    + destruct (isPlaying c); [|constructor]. unfold consumeCalls.
      destruct (currentFrame l); [|constructor].
      destruct (target c) eqn:Et; repeat constructor.
    + destruct Hres as [-> | (t & Ht & ->)]; repeat constructor. exact Ht.
Qed.

Lemma runFrame_calls (time now : num) (c : Controller) :
  target (runFrame time now c) = target c /\
  exists new,
    log (runFrame time now c) = log c ++ new /\
    Forall (fun k => target c = Some (callTarget k)) new.
Proof.
  unfold runFrame.
  change (target c) with (target (with_scheduled [] c)).
  change (log c) with (log (with_scheduled [] c)).
  generalize (with_scheduled [] c). generalize (scheduled c).
  intros es. induction es as [|e es IH]; intros c0; cbn [fold_left].
  - split; [reflexivity|]. exists []. rewrite app_nil_r. auto.
  - destruct (animate_calls (snd e) time now c0) as (Ht & new1 & Hl1 & Hf1).
    destruct (IH (animate (snd e) time now c0)) as (Ht2 & new2 & Hl2 & Hf2).
    split; [congruence|].
    exists (new1 ++ new2). rewrite Hl2, Hl1, app_assoc. split; [reflexivity|].
    apply Forall_app. split; [exact Hf1|]. now rewrite Ht in Hf2.
Qed.

Lemma log_enqueueAndPlay (frames : list LipFrame) (perfNow : num) (c : Controller) :
  log (enqueueAndPlay frames perfNow c) = log c /\
  target (enqueueAndPlay frames perfNow c) = target c.
Proof.
  unfold enqueueAndPlay, startPlayback. cbn [with_queue isPlaying].
  destruct (isPlaying c); split; reflexivity.
Qed.

(** Every call an event causes is made on the target registered when the
    event happens; only [setTarget] changes the target. *)
Lemma applyEvent_calls (e : Event) (c : Controller) :
  (target (applyEvent c e) = target c \/
   exists t, e = EvSetTarget t /\ target (applyEvent c e) = t) /\
  exists new,
    log (applyEvent c e) = log c ++ new /\
    Forall (fun k => target c = Some (callTarget k)) new.
Proof.
  assert (Hnil : forall c' : Controller, log c' = log c ->
            exists new, log c' = log c ++ new /\
                        Forall (fun k => target c = Some (callTarget k)) new).
  { intros c' H. exists []. rewrite app_nil_r. auto. }
  destruct e; cbn [applyEvent].
  - split.
    + right. exists t. split; [reflexivity|]. unfold setTarget.
      destruct t; [reflexivity|].
      now destruct (stop_fields (with_target None c)) as (_ & _ & -> & _).
    + apply Hnil. unfold setTarget. destruct t; [reflexivity|].
      destruct (stop_fields (with_target None c)) as (_ & _ & _ & ->).
      cbn. now rewrite app_nil_r.
  - split; [left; reflexivity | now apply Hnil].
  - unfold processChunk. destruct (_ || _); [split; [left; reflexivity | now apply Hnil]|].
    destruct (log_enqueueAndPlay (textToFrames (config (with_lastChunkTime now c)) rnd content)
                perfNow (with_lastChunkTime now c)) as [Hl Ht].
    split; [left; exact Ht | now apply Hnil].
  - unfold processChunkWithPhonemes.
    destruct (negb (enabled _)); [split; [left; reflexivity | now apply Hnil]|].
    destruct (negb _); [split; [left; reflexivity | now apply Hnil]|].
    match goal with |- context [enqueueAndPlay ?f ?p ?c'] =>
      destruct (log_enqueueAndPlay f p c') as [Hl Ht] end.
    split; [left; exact Ht | now apply Hnil].
  - split; [left; reflexivity | now apply Hnil].
  - destruct (stop_fields c) as (_ & _ & Ht & Hl).
    split; [left; exact Ht|]. eexists; split; [exact Hl|].
    destruct (target c); repeat constructor.
  - destruct (runFrame_calls time now c) as [Ht Hnew]. split; [left; exact Ht | exact Hnew].
Qed.

(** X3.  A target that is not registered receives no call: from a state
    whose target is not [t], and as long as [t] is not registered again,
    no event (chunk, completion, stop, animation frame, change of target)
    causes a call on [t].  In particular, after a handoff to another
    target or after [setTarget(null)] the previous target is left alone. *)
Theorem unregistered_target_receives_no_call (es : list Event) (c : Controller)
    (t : TargetId) :
  target c <> Some t ->
  forallb (fun e => negb (registers t e)) es = true ->
  exists new,
    log (runEvents es c) = log c ++ new /\
    Forall (fun k => callTarget k <> t) new.
Proof.
  revert c. induction es as [|e es IH]; intros c Hc Hes.
  - exists []. cbn. rewrite app_nil_r. auto.
  - cbn [forallb] in Hes. apply andb_prop in Hes. destruct Hes as [He Hes].
    cbn [runEvents fold_left].
    destruct (applyEvent_calls e c) as (Ht & new1 & Hl1 & Hf1).
    assert (Hc' : target (applyEvent c e) <> Some t).
    { destruct Ht as [-> | (t' & -> & ->)]; [exact Hc|].
      cbn [registers] in He. destruct t' as [t'|]; [|discriminate].
      intros [= ->]. now rewrite Nat.eqb_refl in He. }
    destruct (IH _ Hc' Hes) as (new2 & Hl2 & Hf2).
    exists (new1 ++ new2). unfold runEvents in Hl2. rewrite Hl2, Hl1, app_assoc.
    split; [reflexivity|]. apply Forall_app. split; [|exact Hf2].
    eapply Forall_impl; [exact Hf1|]. cbn. intros k Hk Hkt. congruence.
Qed.

Lemma unregistered_target_receives_no_call_witness :
  exists new,
    log (runEvents handoffEvents (setTarget (Some 8%nat) demoHolding)) =
      log (setTarget (Some 8%nat) demoHolding) ++ new /\
    Forall (fun k => callTarget k <> 7%nat) new.
Proof.
  apply (unregistered_target_receives_no_call handoffEvents
           (setTarget (Some 8%nat) demoHolding) 7%nat).
  - discriminate.
  - reflexivity.
Defined.

Example handoff_run :
  map callTarget (log (runEvents handoffEvents (setTarget (Some 8%nat) demoHolding))) =
  [8; 8; 8; 8]%nat.
Proof. vm_compute. reflexivity. Qed.

(* ===================================================================== *)
(** ** Durations of the frames of a chunk *)
(* ===================================================================== *)




Lemma leb_Fin (p q : Qc) : leb (Fin p) (Fin q) = true <-> (p <= q)%Qc.
Proof.
  cbn [leb]. rewrite Qcle_alt. destruct (p ?= q)%Qc; split; congruence.
Qed.













(* ===================================================================== *)
(** ** The easing curve *)
(* ===================================================================== *)

Lemma Qc_half (x : Qc) : (x / Q2Qc (inject_Z 2) = x * Q2Qc (1 # 2))%Qc.
Proof. unfold Qcdiv. f_equal; try now apply Qc_is_canon. Qed.

Lemma easeInOut_Fin (q : Qc) :
  easeInOut (Fin q) =
  Fin (match (q ?= Q2Qc (1 # 2))%Qc with Lt => easeLow q | _ => easeHigh q end).
Proof.
  unfold easeInOut, ofQ. cbn [ltb].
  destruct (q ?= Q2Qc (1 # 2))%Qc; unfold ofZ, ofQ; cbn [mul add sub neg div];
    try reflexivity;
    (change (qsign (Q2Qc (inject_Z 2))) with Gt; cbn iota;
     rewrite Qc_half; reflexivity).
Qed.

Lemma Qc_compare_cases (p q : Qc) :
  ((p ?= q)%Qc = Lt /\ (p < q)%Qc) \/ ((p ?= q)%Qc <> Lt /\ (q <= p)%Qc).
Proof.
  destruct (p ?= q)%Qc eqn:E.
  - right. split; [discriminate|]. apply Qceq_alt in E. subst. apply Qcle_refl.
  - left. split; [reflexivity|]. now apply Qclt_alt.
  - right. split; [discriminate|]. apply Qclt_le_weak, Qcgt_alt. exact E.
Qed.

Lemma easeInOut_Fin_cases (q : Qc) :
  ((q < Q2Qc (1 # 2))%Qc /\ easeInOut (Fin q) = Fin (easeLow q)) \/
  ((Q2Qc (1 # 2) <= q)%Qc /\ easeInOut (Fin q) = Fin (easeHigh q)).
Proof.
  rewrite easeInOut_Fin.
  destruct (Qc_compare_cases q (Q2Qc (1 # 2))) as [[E H] | [E H]].
  - left. now rewrite E.
  - right. split; [exact H|]. destruct (q ?= Q2Qc (1 # 2))%Qc; congruence.
Qed.

Lemma leb_Fin_inv (a b : num) :
  leb a b = true -> isFin a = true -> isFin b = true ->
  exists p q, a = Fin p /\ b = Fin q /\ (p <= q)%Qc.
Proof.
  intros H Ha Hb. apply isFin_Fin in Ha, Hb. destruct Ha as [p ->], Hb as [q ->].
  exists p, q. repeat split. now apply leb_Fin.
Qed.

(** X6.  On the interval [[0,1]] the easing curve is increasing and stays
    within [[0,1]]: while a frame is within its duration, the eased weight
    only grows and never exceeds the weight of the frame. *)
Theorem easeInOut_increasing_on_unit (t1 t2 : num) :
  leb (ofZ 0) t1 = true -> leb t1 t2 = true -> leb t2 (ofZ 1) = true ->
  leb (ofZ 0) (easeInOut t1) = true /\
  leb (easeInOut t1) (easeInOut t2) = true /\
  leb (easeInOut t2) (ofZ 1) = true.
Proof.
  intros H0 H12 H1.
  assert (F1 : isFin t1 = true) by (destruct t1, t2; try discriminate; reflexivity).
  assert (F2 : isFin t2 = true) by (destruct t1, t2; try discriminate; reflexivity).
  apply isFin_Fin in F1, F2. destruct F1 as [p ->], F2 as [q ->].
  unfold ofZ, ofQ in *. apply leb_Fin in H0, H12, H1.
  destruct (easeInOut_Fin_cases p) as [[Hp ->] | [Hp ->]];
    destruct (easeInOut_Fin_cases q) as [[Hq ->] | [Hq ->]];
    rewrite !leb_Fin; unfold easeLow, easeHigh; qc2q; repeat split; nra.
Qed.

Lemma easeInOut_increasing_on_unit_witness :
  leb (ofZ 0) (easeInOut (ofQ (1 # 4))) = true /\
  leb (easeInOut (ofQ (1 # 4))) (easeInOut (ofQ (3 # 4))) = true /\
  leb (easeInOut (ofQ (3 # 4))) (ofZ 1) = true.
Proof.
  apply (easeInOut_increasing_on_unit (ofQ (1 # 4)) (ofQ (3 # 4))); reflexivity.
Defined.


(* ===================================================================== *)
(** ** Mouth-shape adapters: which shapes, which weights *)
(* ===================================================================== *)

Lemma startsWith_refl (s : jsstring) : startsWith s s = true.
Proof. induction s as [|x s IH]; cbn; [reflexivity|]. now rewrite Z.eqb_refl. Qed.

Lemma includes_refl (s : jsstring) : includes s s = true.
Proof. destruct s; cbn; [reflexivity|]. now rewrite Z.eqb_refl, startsWith_refl. Qed.

Lemma includes_nil_l (p : jsstring) : includes [] p = true -> p = [].
Proof. destruct p; cbn; [reflexivity | discriminate]. Qed.

Lemma toLowerCase_nil (s : jsstring) : toLowerCase s = [] -> s = [].
Proof.
  destruct s as [|u s]; [reflexivity|]. unfold toLowerCase. cbn [flat_map].
  unfold lower_unit.
  repeat match goal with |- context [if ?b then _ else _] => destruct b end;
    discriminate.
Qed.

Lemma findIndex_Some {T : Type} (f : T -> bool) (l : list T) (i : nat) :
  findIndex f l = Some i ->
  exists x, l !! i = Some x /\ f x = true /\
            forall j y, (j < i)%nat -> l !! j = Some y -> f y = false.
Proof.
  revert i. induction l as [|x l IH]; intros i; cbn [findIndex]; [discriminate|].
  destruct (f x) eqn:Hx.
  - intros [= <-]. exists x. repeat split; [exact Hx|]. intros j y Hj. lia.
  - destruct (findIndex f l) as [k|]; [|discriminate]. cbn. intros [= <-].
    destruct (IH k eq_refl) as (y & Hy & Hfy & Hbefore).
    exists y. repeat split; [exact Hy | exact Hfy|].
    intros [|j] z Hj; cbn; [now intros [= <-]|]. apply Hbefore. lia.
Qed.

Lemma findIndex_None {T : Type} (f : T -> bool) (l : list T) :
  findIndex f l = None <-> forallb (fun x => negb (f x)) l = true.
Proof.
  induction l as [|x l IH]; cbn [findIndex forallb]; [tauto|].
  destruct (f x); cbn [negb andb]; [split; discriminate|].
  rewrite <- IH. destruct (findIndex f l); cbn; split; congruence.
Qed.

Lemma vrm_candidate_test (e candidate : jsstring) :
  units_eqb e candidate || includes e candidate = includes e candidate.
Proof.
  unfold units_eqb. case_bool_decide as H; [|reflexivity].
  subst. now rewrite includes_refl.
Qed.

Lemma findShape_loop_sound (avail : list jsstring) (candidates : list jsstring)
    (n : jsstring) :
  VRM.findShape_loop avail (map toLowerCase avail) candidates = Some n ->
  n ∈ avail /\
  exists candidate, candidate ∈ candidates /\ includes (toLowerCase n) candidate = true.
Proof.
  induction candidates as [|candidate rest IH]; cbn [VRM.findShape_loop]; [discriminate|].
  destruct (findIndex _ _) as [i|] eqn:Ei.
  - intros Hn. apply findIndex_Some in Ei. destruct Ei as (e & He & Hf & _).
    rewrite list_lookup_fmap, Hn in He. cbn in He. injection He as <-.
    rewrite vrm_candidate_test in Hf. split.
    + now apply list_elem_of_lookup_2 in Hn.
    + exists candidate. split; [apply list_elem_of_here | exact Hf].
  - intros Hn. destruct (IH Hn) as (Hin & c & Hc & Hinc).
    split; [exact Hin|]. exists c. split; [now apply list_elem_of_further | exact Hinc].
Qed.

Lemma findShape_loop_None (avail : list jsstring) (candidates : list jsstring) :
  VRM.findShape_loop avail (map toLowerCase avail) candidates = None <->
  forallb (fun e => negb (existsb (fun c => includes (toLowerCase e) c) candidates))
          avail = true.
Proof.
  induction candidates as [|candidate rest IH]; cbn [VRM.findShape_loop existsb].
  - split; [intros _|reflexivity]. induction avail; cbn; auto.
  - destruct (findIndex _ _) as [i|] eqn:Ei.
    + apply findIndex_Some in Ei. destruct Ei as (e & He & Hf & _).
      rewrite list_lookup_fmap in He.
      destruct (avail !! i) as [n|] eqn:En; [|discriminate]. cbn in He.
      injection He as <-. rewrite vrm_candidate_test in Hf.
      split; [discriminate|]. intros Hall. exfalso.
      rewrite forallb_forall in Hall.
      assert (Hin : In n avail).
      { apply list_elem_of_In. now apply list_elem_of_lookup_2 in En. }
      specialize (Hall n Hin). now rewrite Hf in Hall.
    + apply findIndex_None in Ei. rewrite forallb_forall in Ei.
      rewrite IH. rewrite !forallb_forall. split; intros H e He.
      * specialize (H e He). specialize (Ei (toLowerCase e)).
        rewrite vrm_candidate_test in Ei.
        rewrite negb_orb, H, andb_true_r. apply Ei. now apply in_map.
      * specialize (H e He). rewrite negb_orb in H.
        now apply andb_prop in H.
Qed.

Lemma vrm_candidates_nonempty (p : Phoneme) (candidate : jsstring) :
  candidate ∈ VRM.VRM_MOUTH_SHAPES p -> candidate <> [].
Proof.
  intros Hin ->. destruct p; cbn in Hin;
    repeat (apply elem_of_cons in Hin; destruct Hin as [Hin|Hin]; [discriminate|]);
    now apply elem_of_nil in Hin.
Qed.

(** X8.  The shape the VRM adapter maps a phoneme to is one of the
    available expressions, is not the empty name, and contains one of the
    phoneme's candidate names, case ignored; a phoneme has no shape exactly
    when it is [closed] or no available expression contains any of its
    candidates. *)
Theorem vrm_shape_mapping (availableExpressions : list jsstring) (p : Phoneme) :
  (forall n, VRM.shapeMapOf availableExpressions p = Some n ->
     n ∈ availableExpressions /\ n <> [] /\ p <> closed /\
     matchesCandidate p n = true) /\
  (VRM.shapeMapOf availableExpressions p = None <->
     p = closed \/
     forallb (fun e => negb (matchesCandidate p e)) availableExpressions = true).
Proof.
  unfold VRM.shapeMapOf, VRM.findShape, matchesCandidate.
  split.
  - intros n. case_bool_decide as Hp; [|discriminate].
    destruct (VRM.findShape_loop _ _ _) as [m|] eqn:Ef; [|discriminate].
    destruct (findShape_loop_sound _ _ _ Ef) as (Hin & c & Hc & Hinc).
    assert (Hm : m <> []).
    { intros ->. cbn in Hinc. apply includes_nil_l in Hinc.
      now apply (vrm_candidates_nonempty p c). }
    destruct m as [|u m]; [congruence|]. intros [= <-].
    repeat split; try assumption.
    + intros ->. now apply elem_of_nil in Hc.
    + apply existsb_exists. exists c. split; [now apply list_elem_of_In | exact Hinc].
  - case_bool_decide as Hp.
    + destruct (VRM.findShape_loop _ _ _) as [m|] eqn:Ef.
      * destruct (findShape_loop_sound _ _ _ Ef) as (Hin & c & Hc & Hinc).
        assert (Hm : m <> []).
        { intros ->. cbn in Hinc. apply includes_nil_l in Hinc.
          now apply (vrm_candidates_nonempty p c). }
        destruct m as [|u m]; [congruence|].
        split; [discriminate|]. intros [-> | Hall].
        -- exfalso. revert Hp. clear. intros Hp.
           repeat (apply elem_of_cons in Hp; destruct Hp as [Hp|Hp]; [discriminate|]).
           now apply elem_of_nil in Hp.
        -- apply findShape_loop_None in Hall. congruence.
      * split; [|reflexivity]. intros _. right. now apply findShape_loop_None.
    + split; [|reflexivity]. intros _. left.
      destruct p; try reflexivity; exfalso; apply Hp;
        repeat first [apply list_elem_of_here | apply list_elem_of_further].
Qed.

Example shape_map_of_three_expressions :
  map (VRM.shapeMapOf [lit "Fcl_MTH_A"; lit "Happy"; lit "Blink"]) [A; E; I; O; U; N; closed] =
  [Some (lit "Fcl_MTH_A"); None; Some (lit "Blink"); None; None; Some (lit "Blink"); None].
Proof. reflexivity. Qed.

Lemma vrm_setShapeOf_other (p : Phoneme) (w : num) (a : VRM.Adapter) (name : jsstring) :
  ~ vrmControls a name ->
  VRM.expressions (VRM.setShapeOf p w a) !! name = VRM.expressions a !! name.
Proof.
  intros Hn. unfold VRM.setShapeOf.
  destruct (VRM.shapeMap a p) as [s|] eqn:Hs; [|reflexivity].
  cbn. apply lookup_insert_ne. intros ->. apply Hn. now exists p.
Qed.

Lemma vrm_perform_other (k : TargetCall) (a : VRM.Adapter) (name : jsstring) :
  ~ vrmControls a name ->
  VRM.shapeMap (VRM.perform a k) = VRM.shapeMap a /\
  VRM.expressions (VRM.perform a k) !! name = VRM.expressions a !! name.
Proof.
  intros Hn.
  assert (Hstep : forall q v,
            VRM.expressions (VRM.setShapeOf q v a) !! name = VRM.expressions a !! name
            /\ VRM.shapeMap (VRM.setShapeOf q v a) = VRM.shapeMap a).
  { intros q v. split; [now apply vrm_setShapeOf_other | apply vrm_setShapeOf_shapeMap]. }
  destruct k as [p w|]; cbn [VRM.perform].
  - unfold VRM.setMouthShape.
    destruct (_ && _); cbn [VRM.with_lastPhoneme VRM.shapeMap VRM.expressions].
    + destruct (Hstep (VRM.lastPhoneme a) (ofZ 0)) as [He Hm].
      split; [rewrite (proj1 (vrm_setShapeOf_shapeMap _ _ _)); exact Hm|].
      rewrite vrm_setShapeOf_other; [exact He|].
      intros [q Hq]. apply Hn. exists q. now rewrite <- Hm.
    + destruct (Hstep p w) as [He Hm]. split; [exact Hm | exact He].
  - unfold VRM.resetMouth.
    destruct (bool_decide _); cbn [VRM.with_lastPhoneme VRM.shapeMap VRM.expressions].
    + destruct (Hstep (VRM.lastPhoneme a) (ofZ 0)) as [He Hm]. split; assumption.
    + split; reflexivity.
Qed.

Lemma vrm_run_other (ks : list TargetCall) (a : VRM.Adapter) (name : jsstring) :
  ~ vrmControls a name ->
  VRM.shapeMap (VRM.run ks a) = VRM.shapeMap a /\
  VRM.expressions (VRM.run ks a) !! name = VRM.expressions a !! name.
Proof.
  revert a. induction ks as [|k ks IH]; intros a Hn; [split; reflexivity|].
  cbn [VRM.run fold_left].
  destruct (vrm_perform_other k a name Hn) as [Hm He].
  destruct (IH (VRM.perform a k)) as [Hm' He'].
  { intros [q Hq]. apply Hn. exists q. now rewrite <- Hm. }
  unfold VRM.run in *. split; [now rewrite Hm' | now rewrite He'].
Qed.

Lemma mmd_write_other (j : Z) (w : num) (infl : list num) (i : nat) :
  Z.of_nat i <> j ->
  fst (MMD.writeInfluence j w infl) !! i = infl !! i /\
  length (fst (MMD.writeInfluence j w infl)) = length infl.
Proof.
  intros Hij. unfold MMD.writeInfluence.
  destruct (_ && _) eqn:Hw; cbn [fst]; [|split; reflexivity].
  split; [|apply length_insert].
  apply list_lookup_insert_ne. intros <-.
  apply andb_prop in Hw. destruct Hw as [_ Hw]. apply bool_decide_eq_true in Hw.
  unfold MMD.influenceAt in Hw. destruct (Z.leb_spec 0 j); [|now destruct Hw]. lia.
Qed.

Lemma mmd_write_length (j : Z) (w : num) (infl : list num) :
  length (fst (MMD.writeInfluence j w infl)) = length infl.
Proof.
  unfold MMD.writeInfluence. destruct (_ && _); cbn [fst]; [apply length_insert | reflexivity].
Qed.

Lemma mmd_lastIndex_controlled (ks : list TargetCall) (a : MMD.Adapter) :
  (MMD.lastIndex a = -1 \/ mmdControls a (MMD.lastIndex a)) ->
  MMD.dict (MMD.run ks a) = MMD.dict a /\
  (MMD.lastIndex (MMD.run ks a) = -1 \/ mmdControls a (MMD.lastIndex (MMD.run ks a))).
Proof.
  revert a. induction ks as [|k ks IH]; intros a Ha; [auto|].
  cbn [MMD.run fold_left].
  assert (Hk : MMD.dict (MMD.perform a k) = MMD.dict a /\
               (MMD.lastIndex (MMD.perform a k) = -1 \/
                mmdControls a (MMD.lastIndex (MMD.perform a k)))).
  { destruct k as [p w|]; cbn [MMD.perform].
    - unfold MMD.setMouthShape.
      destruct (MMD.writeInfluence (MMD.findMorphIndex a p) w _) as [infl2 written].
      cbn. split; [reflexivity|]. destruct written; [right; now exists p | exact Ha].
    - cbn. auto. }
  destruct Hk as [Hd Hl].
  assert (Hc : forall i, mmdControls (MMD.perform a k) i <-> mmdControls a i).
  { intros i. unfold mmdControls, MMD.findMorphIndex. now rewrite Hd. }
  destruct (IH (MMD.perform a k)) as [Hd' Hl'].
  { destruct Hl as [Hl|Hl]; [now left | right; now apply Hc]. }
  unfold MMD.run in *.
  split; [congruence|]. destruct Hl' as [Hl'|Hl']; [now left | right; now apply Hc].
Qed.

Lemma mmd_perform_other (k : TargetCall) (a : MMD.Adapter) (i : nat) :
  (MMD.lastIndex a = -1 \/ mmdControls a (MMD.lastIndex a)) ->
  ~ mmdControls a (Z.of_nat i) ->
  MMD.influences (MMD.perform a k) !! i = MMD.influences a !! i /\
  length (MMD.influences (MMD.perform a k)) = length (MMD.influences a).
Proof.
  intros Hl Hi.
  assert (Hlast : Z.of_nat i <> MMD.lastIndex a).
  { destruct Hl as [Hl|Hl]; [lia|]. intros E. apply Hi. now rewrite E. }
  destruct (mmd_write_other (MMD.lastIndex a) (ofZ 0) (MMD.influences a) i Hlast)
    as [E1 L1].
  destruct k as [p w|]; cbn [MMD.perform].
  - unfold MMD.setMouthShape.
    assert (Hp : Z.of_nat i <> MMD.findMorphIndex a p).
    { intros E. apply Hi. exists p. now rewrite E. }
    destruct (mmd_write_other (MMD.findMorphIndex a p) w
                (fst (MMD.writeInfluence (MMD.lastIndex a) (ofZ 0) (MMD.influences a)))
                i Hp) as [E2 L2].
    destruct (MMD.writeInfluence (MMD.findMorphIndex a p) w _) as [infl2 written].
    cbn in *. split; congruence.
  - cbn. split; assumption.
Qed.

(** X9.  The adapters touch nothing but mouth shapes.  Whatever calls are
    made, a VRM expression that is the shape of no phoneme keeps its
    weight; in the MMD mesh the array of influences keeps its length and
    an index that is the morph index of no phoneme keeps its influence. *)
Theorem adapters_leave_other_shapes
    (availableExpressions : list jsstring) (weights : gmap jsstring num)
    (morphTargetDictionary : option (gmap jsstring Z))
    (morphTargetInfluences : option (list num))
    (calls : list TargetCall) :
  let v := VRM.createVRMLipSyncAdapter availableExpressions weights in
  let m := MMD.createMMDLipSyncAdapter morphTargetDictionary morphTargetInfluences in
  (forall name, ~ vrmControls v name ->
     VRM.expressions (VRM.run calls v) !! name = weights !! name) /\
  length (MMD.influences (MMD.run calls m)) = length (MMD.influences m) /\
  (forall i : nat, ~ mmdControls m (Z.of_nat i) ->
     MMD.influences (MMD.run calls m) !! i = MMD.influences m !! i).
Proof.
  cbn zeta. split; [|].
  - intros name Hn. now apply vrm_run_other.
  - set (m := MMD.createMMDLipSyncAdapter morphTargetDictionary morphTargetInfluences).
    assert (H0 : MMD.lastIndex m = -1 \/ mmdControls m (MMD.lastIndex m)) by now left.
    clearbody m. revert m H0.
    induction calls as [|k ks IH]; intros m H0; [split; reflexivity|].
    cbn [MMD.run fold_left].
    destruct (mmd_lastIndex_controlled [k] m H0) as [Hd Hl]. cbn in Hd, Hl.
    assert (Hc : forall i, mmdControls (MMD.perform m k) i <-> mmdControls m i).
    { intros i. unfold mmdControls, MMD.findMorphIndex. now rewrite Hd. }
    destruct (IH (MMD.perform m k)) as [Hlen Hoth].
    { destruct Hl as [Hl|Hl]; [now left | right; now apply Hc]. }
    unfold MMD.run in *. split.
    + rewrite Hlen.
      destruct k as [p w|]; cbn [MMD.perform]; unfold MMD.setMouthShape, MMD.resetMouth.
      * pose proof (mmd_write_length (MMD.findMorphIndex m p) w
          (fst (MMD.writeInfluence (MMD.lastIndex m) (ofZ 0) (MMD.influences m)))) as L2.
        destruct (MMD.writeInfluence (MMD.findMorphIndex m p) w _) as [infl2 written].
        cbn in *. rewrite L2. apply mmd_write_length.
      * cbn. apply mmd_write_length.
    + intros i Hi. rewrite Hoth by (now rewrite Hc).
      now apply mmd_perform_other.
Qed.

Lemma adapters_leave_other_shapes_witness :
  VRM.expressions
    (VRM.run demoCalls
       (VRM.createVRMLipSyncAdapter demoExpressions {[ demoOtherExpression := ofZ 1 ]}))
    !! demoOtherExpression = Some (ofZ 1) /\
  MMD.influences
    (MMD.run demoCalls
       (MMD.createMMDLipSyncAdapter (Some demoDict) (Some demoInfluences)))
    !! 1%nat = Some (ofZ 1).
Proof.
  pose proof (adapters_leave_other_shapes demoExpressions
                {[ demoOtherExpression := ofZ 1 ]} (Some demoDict)
                (Some demoInfluences) demoCalls) as (Hv & _ & Hm).
  split.
  - rewrite Hv; [apply lookup_singleton_eq|].
    intros [p Hp]. destruct p; vm_compute in Hp; discriminate.
  - rewrite (Hm 1%nat); [reflexivity|].
    intros [p Hp]. destruct p; vm_compute in Hp; discriminate.
Defined.

Lemma vrm_setMouthShape_weight (p : Phoneme) (w : num) (a : VRM.Adapter) (s : jsstring) :
  VRM.shapeMap a p = Some s -> VRM.weightOf s (VRM.setMouthShape p w a) = w.
Proof.
  intros Hs. unfold VRM.setMouthShape.
  set (a1 := if _ && _ then _ else a).
  assert (Hs1 : VRM.shapeMap a1 p = Some s).
  { subst a1. destruct (_ && _); [|exact Hs].
    now rewrite (proj1 (vrm_setShapeOf_shapeMap _ _ a)). }
  rewrite (vrm_setShapeOf_Some _ _ _ _ Hs1).
  unfold VRM.weightOf. cbn. now rewrite lookup_insert_eq.
Qed.

Lemma vrm_run_shapeMap (ks : list TargetCall) (a : VRM.Adapter) :
  VRM.shapeMap (VRM.run ks a) = VRM.shapeMap a.
Proof.
  revert a. induction ks as [|k ks IH]; intros a; [reflexivity|].
  cbn [VRM.run fold_left]. unfold VRM.run in IH. rewrite IH.
  destruct k as [p w|]; cbn [VRM.perform].
  - unfold VRM.setMouthShape. cbn [VRM.with_lastPhoneme VRM.shapeMap].
    rewrite (proj1 (vrm_setShapeOf_shapeMap _ _ _)).
    destruct (_ && _); [apply vrm_setShapeOf_shapeMap | reflexivity].
  - unfold VRM.resetMouth. cbn [VRM.with_lastPhoneme VRM.shapeMap].
    destruct (bool_decide _); [apply vrm_setShapeOf_shapeMap | reflexivity].
Qed.

Lemma mmd_run_dict (ks : list TargetCall) (a : MMD.Adapter) :
  MMD.dict (MMD.run ks a) = MMD.dict a.
Proof.
  revert a. induction ks as [|k ks IH]; intros a; [reflexivity|].
  cbn [MMD.run fold_left]. unfold MMD.run in IH. rewrite IH.
  destruct k as [p w|]; cbn [MMD.perform]; [|reflexivity].
  unfold MMD.setMouthShape. now destruct (MMD.writeInfluence _ _ _).
Qed.

Lemma mmd_run_length (ks : list TargetCall) (a : MMD.Adapter) :
  length (MMD.influences (MMD.run ks a)) = length (MMD.influences a).
Proof.
  revert a. induction ks as [|k ks IH]; intros a; [reflexivity|].
  cbn [MMD.run fold_left]. unfold MMD.run in IH. rewrite IH.
  destruct k as [p w|]; cbn [MMD.perform]; unfold MMD.setMouthShape, MMD.resetMouth.
  - pose proof (mmd_write_length (MMD.findMorphIndex a p) w
      (fst (MMD.writeInfluence (MMD.lastIndex a) (ofZ 0) (MMD.influences a)))) as L2.
    destruct (MMD.writeInfluence (MMD.findMorphIndex a p) w _) as [infl2 written].
    cbn in *. rewrite L2. apply mmd_write_length.
  - cbn. apply mmd_write_length.
Qed.

Lemma mmd_influenceAt_is_Some (infl infl' : list num) (i : Z) :
  length infl' = length infl ->
  is_Some (MMD.influenceAt infl i) -> is_Some (MMD.influenceAt infl' i).
Proof.
  unfold MMD.influenceAt. intros Hlen. destruct (0 <=? i); [|auto].
  rewrite !lookup_lt_is_Some. now rewrite Hlen.
Qed.

(** What [setMouthShape] leaves in the MMD mesh: the requested influence at
    the index of the phoneme if that index exists in the array, and zero
    at every other controlled index. *)
Lemma mmd_setMouthShape_effect (p : Phoneme) (w : num) (a : MMD.Adapter) :
  mmdInv a ->
  let a' := MMD.setMouthShape p w a in
  (is_Some (MMD.influenceAt (MMD.influences a) (MMD.findMorphIndex a p)) ->
     MMD.influenceAt (MMD.influences a') (MMD.findMorphIndex a p) = Some w) /\
  (forall q v, MMD.findMorphIndex a q <> MMD.findMorphIndex a p ->
     MMD.influenceAt (MMD.influences a') (MMD.findMorphIndex a q) = Some v ->
     nonzero v = false).
Proof.
  intros Hinv a'. subst a'. unfold MMD.setMouthShape.
  set (infl1 := fst (MMD.writeInfluence (MMD.lastIndex a) (ofZ 0) (MMD.influences a))).
  assert (Hw : forall i,
            MMD.influenceAt (fst (MMD.writeInfluence (MMD.findMorphIndex a p) w infl1)) i =
            if snd (MMD.writeInfluence (MMD.findMorphIndex a p) w infl1)
               && (i =? MMD.findMorphIndex a p)
            then Some w else MMD.influenceAt infl1 i)
    by (intros i; apply mmd_influenceAt_write).
  assert (Hwritten : is_Some (MMD.influenceAt (MMD.influences a) (MMD.findMorphIndex a p)) ->
            snd (MMD.writeInfluence (MMD.findMorphIndex a p) w infl1) = true).
  { intros Hsome.
    assert (Hsome1 : is_Some (MMD.influenceAt infl1 (MMD.findMorphIndex a p))).
    { eapply mmd_influenceAt_is_Some; [|exact Hsome]. apply mmd_write_length. }
    unfold MMD.writeInfluence. rewrite bool_decide_eq_true_2 by exact Hsome1.
    destruct (Z.eqb_spec (MMD.findMorphIndex a p) (-1)) as [E|_]; [|reflexivity].
    rewrite E in Hsome. now destruct Hsome. }
  destruct (MMD.writeInfluence (MMD.findMorphIndex a p) w infl1) as [infl2 written].
  cbn [fst snd MMD.influences] in *. split.
  - intros Hsome. rewrite Hw, (Hwritten Hsome), Z.eqb_refl. reflexivity.
  - intros q v Hq. rewrite Hw.
    destruct (Z.eqb_spec (MMD.findMorphIndex a q) (MMD.findMorphIndex a p)) as [E|_];
      [contradiction|].
    rewrite andb_false_r. now apply mmd_zero_last.
Qed.

(** X10.  On adapters created over a model at rest and after any earlier
    calls, [setMouthShape(p, w)] leaves the shape of [p] at exactly the
    weight [w] (when the model has such a shape) and every other
    controlled shape at zero. *)
Theorem setMouthShape_applies_weight
    (availableExpressions : list jsstring) (weights : gmap jsstring num)
    (morphTargetDictionary : option (gmap jsstring Z))
    (morphTargetInfluences : option (list num))
    (calls : list TargetCall) (p : Phoneme) (w : num) :
  let v := VRM.createVRMLipSyncAdapter availableExpressions weights in
  let m := MMD.createMMDLipSyncAdapter morphTargetDictionary morphTargetInfluences in
  vrmAtRest v -> mmdAtRest m ->
  let v' := VRM.setMouthShape p w (VRM.run calls v) in
  let m' := MMD.setMouthShape p w (MMD.run calls m) in
  (forall s, VRM.shapeMap v p = Some s -> VRM.weightOf s v' = w) /\
  (forall q n, VRM.shapeMap v q = Some n -> VRM.shapeMap v p <> Some n ->
     nonzero (VRM.weightOf n v') = false) /\
  (is_Some (MMD.influenceAt (MMD.influences m) (MMD.findMorphIndex m p)) ->
     MMD.influenceAt (MMD.influences m') (MMD.findMorphIndex m p) = Some w) /\
  (forall q x, MMD.findMorphIndex m q <> MMD.findMorphIndex m p ->
     MMD.influenceAt (MMD.influences m') (MMD.findMorphIndex m q) = Some x ->
     nonzero x = false).
Proof.
  intros v m Hv Hm v' m'.
  assert (Iv : vrmInv (VRM.run calls v)) by now apply vrm_run_inv, vrm_created_inv.
  assert (Im : mmdInv (MMD.run calls m)).
  { apply mmd_run_inv. intros q x Hx Hnz. rewrite (Hm q x Hx) in Hnz. discriminate. }
  pose proof (vrm_run_shapeMap calls v) as Sv.
  assert (Fm : forall q, MMD.findMorphIndex (MMD.run calls m) q = MMD.findMorphIndex m q).
  { intros q. unfold MMD.findMorphIndex. now rewrite mmd_run_dict. }
  split; [|split; [|split]].
  - intros s Hs. subst v'. apply vrm_setMouthShape_weight. now rewrite Sv.
  - intros q n Hq Hp.
    destruct (nonzero (VRM.weightOf n v')) eqn:Hnz; [|reflexivity]. exfalso.
    pose proof (vrm_setMouthShape_inv p w _ Iv) as [_ Hone]. fold v' in Hone.
    assert (Sv' : VRM.shapeMap v' = VRM.shapeMap v).
    { subst v'. rewrite <- Sv. apply (vrm_run_shapeMap [CallSetMouthShape p w]). }
    specialize (Hone q n). rewrite Sv' in Hone. specialize (Hone Hq Hnz).
    apply Hp. rewrite <- Hone. reflexivity.
  - intros Hsome. subst m'.
    destruct (mmd_setMouthShape_effect p w _ Im) as [Hset _].
    rewrite Fm in Hset. apply Hset.
    eapply mmd_influenceAt_is_Some; [|exact Hsome]. apply mmd_run_length.
  - intros q x Hq Hx. subst m'.
    destruct (mmd_setMouthShape_effect p w _ Im) as [_ Hzero].
    apply (Hzero q x); rewrite !Fm; assumption.
Qed.

Lemma setMouthShape_applies_weight_witness :
  let v := VRM.createVRMLipSyncAdapter demoExpressions ∅ in
  let m := MMD.createMMDLipSyncAdapter (Some demoDict) (Some demoInfluences) in
  let v' := VRM.setMouthShape I (ofQ (2 # 5)) (VRM.run demoCalls v) in
  let m' := MMD.setMouthShape I (ofQ (2 # 5)) (MMD.run demoCalls m) in
  (forall s, VRM.shapeMap v I = Some s -> VRM.weightOf s v' = ofQ (2 # 5)) /\
  (forall q n, VRM.shapeMap v q = Some n -> VRM.shapeMap v I <> Some n ->
     nonzero (VRM.weightOf n v') = false) /\
  (is_Some (MMD.influenceAt (MMD.influences m) (MMD.findMorphIndex m I)) ->
     MMD.influenceAt (MMD.influences m') (MMD.findMorphIndex m I) = Some (ofQ (2 # 5))) /\
  (forall q x, MMD.findMorphIndex m q <> MMD.findMorphIndex m I ->
     MMD.influenceAt (MMD.influences m') (MMD.findMorphIndex m q) = Some x ->
     nonzero x = false).
Proof.
  apply (setMouthShape_applies_weight demoExpressions ∅ (Some demoDict)
           (Some demoInfluences) demoCalls I (ofQ (2 # 5))).
  - intros p n _. reflexivity.
  - intros p w. destruct p; vm_compute; intros [= <-]; reflexivity.
Defined.

(** X11.  On adapters created over a model at rest and after any calls,
    [resetMouth()] leaves every controlled shape at zero: the mouth is
    closed whatever was shown before. *)
Theorem resetMouth_closes_mouth
    (availableExpressions : list jsstring) (weights : gmap jsstring num)
    (morphTargetDictionary : option (gmap jsstring Z))
    (morphTargetInfluences : option (list num))
    (calls : list TargetCall) :
  vrmAtRest (VRM.createVRMLipSyncAdapter availableExpressions weights) ->
  mmdAtRest (MMD.createMMDLipSyncAdapter morphTargetDictionary morphTargetInfluences) ->
  vrmAtRest
    (VRM.resetMouth
       (VRM.run calls (VRM.createVRMLipSyncAdapter availableExpressions weights))) /\
  mmdAtRest
    (MMD.resetMouth
       (MMD.run calls
          (MMD.createMMDLipSyncAdapter morphTargetDictionary morphTargetInfluences))).
Proof.
  intros Hv Hm. split.
  - apply vrm_closed_at_rest; [|reflexivity].
    now apply vrm_resetMouth_inv, vrm_run_inv, vrm_created_inv.
  - intros q x. unfold MMD.resetMouth, MMD.findMorphIndex.
    cbn [MMD.dict MMD.influences].
    apply mmd_zero_last. apply mmd_run_inv.
    intros q' x' Hx Hnz. rewrite (Hm q' x' Hx) in Hnz. discriminate.
Qed.

Lemma resetMouth_closes_mouth_witness :
  vrmAtRest
    (VRM.resetMouth (VRM.run demoCalls (VRM.createVRMLipSyncAdapter demoExpressions ∅))) /\
  mmdAtRest
    (MMD.resetMouth
       (MMD.run demoCalls
          (MMD.createMMDLipSyncAdapter (Some demoDict) (Some demoInfluences)))).
Proof.
  apply (resetMouth_closes_mouth demoExpressions ∅ (Some demoDict)
           (Some demoInfluences) demoCalls).
  - intros p n _. reflexivity.
  - intros p w. destruct p; vm_compute; intros [= <-]; reflexivity.
Defined.

(* ===================================================================== *)
(** ** The registry and the model store *)
(* ===================================================================== *)

Lemma startsWith_prefix (s p : jsstring) :
  startsWith s p = true <-> exists t, s = p ++ t.
Proof.
  revert s. induction p as [|y p IH]; intros s.
  - split; [intros _; now exists s | now destruct s].
  - destruct s as [|x s]; cbn [startsWith].
    + split; [discriminate | intros [t Ht]; discriminate].
    + rewrite andb_true_iff, Z.eqb_eq, IH. split.
      * intros [-> [t ->]]. now exists t.
      * intros [t Ht]. cbn in Ht. injection Ht as -> ->.
        split; [reflexivity | now exists t].
Qed.

Lemma endsWith_suffix (s p : jsstring) :
  endsWith s p = true <-> exists t, s = t ++ p.
Proof.
  unfold endsWith. rewrite startsWith_prefix. split.
  - intros [t Ht]. exists (rev t). apply (f_equal (@rev Z)) in Ht.
    rewrite List.rev_involutive, List.rev_app_distr, List.rev_involutive in Ht.
    exact Ht.
  - intros [t ->]. exists (rev t). apply List.rev_app_distr.
Qed.

Lemma endsWith_toLowerCase (s p : jsstring) :
  toLowerCase p = p -> endsWith s p = true -> endsWith (toLowerCase s) p = true.
Proof.
  intros Hp. rewrite !endsWith_suffix. intros [t ->]. exists (toLowerCase t).
  unfold toLowerCase in *. now rewrite flat_map_app, Hp.
Qed.

Lemma endsWith_app (s a b : jsstring) :
  endsWith s (a ++ b) = true -> endsWith s b = true.
Proof.
  rewrite !endsWith_suffix. intros [t ->]. exists (t ++ a). now rewrite <- app_assoc.
Qed.

Lemma startsWith_comparable (s p q : jsstring) :
  startsWith s p = true -> startsWith s q = true -> (length q <= length p)%nat ->
  startsWith p q = true.
Proof.
  revert s p. induction q as [|z q IH]; intros s p Hp Hq Hl; [now destruct p|].
  destruct p as [|y p]; [cbn in Hl; lia|].
  destruct s as [|x s]; [discriminate|].
  cbn [startsWith] in *.
  apply andb_true_iff in Hp as [Hxy Hp]. apply andb_true_iff in Hq as [Hxz Hq].
  apply Z.eqb_eq in Hxy, Hxz. subst. rewrite Z.eqb_refl. cbn [andb].
  apply (IH s p); auto. cbn in Hl; lia.
Qed.

(** Two suffixes of one string: one of them is a suffix of the other. *)
Lemma endsWith_excl (s p q : jsstring) :
  endsWith s p = true -> endsWith p q = false -> endsWith q p = false ->
  endsWith s q = false.
Proof.
  intros Hp Hpq Hqp. destruct (endsWith s q) eqn:Hq; [|reflexivity]. exfalso.
  unfold endsWith in *.
  destruct (le_ge_dec (length (rev q)) (length (rev p))) as [L|L].
  - rewrite (startsWith_comparable _ _ _ Hp Hq L) in Hpq. discriminate.
  - rewrite (startsWith_comparable _ _ _ Hq Hp L) in Hqp. discriminate.
Qed.

Lemma lower_json (path : jsstring) :
  endsWith path (lit ".model.json") || endsWith path (lit ".model3.json") = true ->
  endsWith (toLowerCase path) (lit "json") = true.
Proof.
  intros H. apply orb_true_iff in H as [H|H];
    apply (endsWith_toLowerCase _ _ eq_refl) in H.
  - now apply (endsWith_app _ (lit ".model.")).
  - now apply (endsWith_app _ (lit ".model3.")).
Qed.

(** X12.  The registry gives the first registered factory that accepts
    the path; [canHandle] holds exactly when [getFactory] finds one; and
    registering one more factory never changes the factory of a path that
    was already resolved. *)
Theorem registry_first_registered_wins (r : RendererRegistry) (modelPath : jsstring) :
  (canHandle r modelPath = true <-> is_Some (getFactory r modelPath)) /\
  (forall f, getFactory r modelPath = Some f ->
     exists earlier later,
       r = earlier ++ f :: later /\ factoryCanHandle f modelPath = true /\
       Forall (fun g => factoryCanHandle g modelPath = false) earlier) /\
  (forall g, getFactory (register g r) modelPath =
     match getFactory r modelPath with
     | Some f => Some f
     | None => if factoryCanHandle g modelPath then Some g else None
     end).
Proof.
  unfold canHandle, getFactory, register. split; [|split].
  - induction r as [|f r IH]; cbn [existsb List.find].
    + split; [discriminate | intros [x Hx]; discriminate].
    + destruct (factoryCanHandle f modelPath); cbn [orb]; [|exact IH].
      split; eauto.
  - induction r as [|f r IH]; intros f0; cbn [List.find]; [discriminate|].
    destruct (factoryCanHandle f modelPath) eqn:Hf.
    + intros [= <-]. exists [], r. auto.
    + intros Hfind. destruct (IH f0 Hfind) as (earlier & later & -> & Hacc & Hrej).
      exists (f :: earlier), later. repeat split; auto.
  - intros g. induction r as [|f r IH]; cbn [app List.find]; [reflexivity|].
    now destruct (factoryCanHandle f modelPath).
Qed.

(** X13.  The model store and the default registry on one path: when the
    registry has a factory for it, the type chosen by the store's
    [loadModel] is the type of the renderer this factory creates, but in
    two cases, both on glTF files: a [.glb] path goes to the VRM factory
    while the store finds no VRM marker in the file, or the path goes to
    the glTF factory while the store finds one. *)
Theorem store_agrees_with_registry
    (path : jsstring) (fetched : option (list Z)) (f : Factory) :
  getFactory createDefaultRendererRegistry path = Some f ->
  detectModelType path fetched = createdModelType f \/
  (f = VRMRendererFactory /\ endsWith path (lit ".glb") = true /\
   detectVRMExtension fetched = false /\ detectModelType path fetched = gltf) \/
  (f = GLTFRendererFactory /\ detectVRMExtension fetched = true /\
   detectModelType path fetched = vrm).
Proof.
  unfold getFactory, createDefaultRendererRegistry, register.
  cbn [app List.find factoryCanHandle]. unfold detectModelType.
  set (lp := toLowerCase path).
  destruct (endsWith path (lit ".model.json") || endsWith path (lit ".model3.json"))
    eqn:HL.
  { intros [= <-]. left. pose proof (lower_json _ HL) as J. fold lp in J.
    replace (endsWith lp (lit ".vrm")) with false
      by (symmetry; apply (endsWith_excl _ _ _ J); vm_compute; reflexivity).
    replace (endsWith lp (lit ".glb")) with false
      by (symmetry; apply (endsWith_excl _ _ _ J); vm_compute; reflexivity).
    replace (endsWith lp (lit ".gltf")) with false
      by (symmetry; apply (endsWith_excl _ _ _ J); vm_compute; reflexivity).
    replace (endsWith lp (lit ".fbx")) with false
      by (symmetry; apply (endsWith_excl _ _ _ J); vm_compute; reflexivity).
    replace (endsWith lp (lit ".pmd")) with false
      by (symmetry; apply (endsWith_excl _ _ _ J); vm_compute; reflexivity).
    replace (endsWith lp (lit ".pmx")) with false
      by (symmetry; apply (endsWith_excl _ _ _ J); vm_compute; reflexivity).
    cbn [orb]. now destruct (includes lp _ || includes lp _). }
  destruct (endsWith path (lit ".vrm")) eqn:B1.
  { cbn [orb]. intros [= <-]. left.
    apply (endsWith_toLowerCase _ _ eq_refl) in B1. fold lp in B1.
    now rewrite B1. }
  destruct (endsWith path (lit ".glb")) eqn:B2.
  { cbn [orb]. intros [= <-].
    pose proof (endsWith_toLowerCase _ _ eq_refl B2) as G. fold lp in G.
    replace (endsWith lp (lit ".vrm")) with false
      by (symmetry; apply (endsWith_excl _ _ _ G); vm_compute; reflexivity).
    rewrite G. cbn [orb].
    destruct (detectVRMExtension fetched); [left | right; left]; auto. }
  cbn [orb].
  destruct (endsWith lp (lit ".vrm")) eqn:LV.
  { replace (endsWith lp (lit ".fbx")) with false
      by (symmetry; apply (endsWith_excl _ _ _ LV); vm_compute; reflexivity).
    replace (endsWith lp (lit ".pmd")) with false
      by (symmetry; apply (endsWith_excl _ _ _ LV); vm_compute; reflexivity).
    replace (endsWith lp (lit ".pmx")) with false
      by (symmetry; apply (endsWith_excl _ _ _ LV); vm_compute; reflexivity).
    discriminate. }
  rewrite (orb_comm (endsWith lp (lit ".glb"))).
  destruct (endsWith lp (lit ".gltf") || endsWith lp (lit ".glb")) eqn:LG.
  { intros [= <-]. destruct (detectVRMExtension fetched); [right; right | left]; auto. }
  destruct (endsWith lp (lit ".fbx")) eqn:LF.
  { intros [= <-]. now left. }
  destruct (endsWith lp (lit ".pmd") || endsWith lp (lit ".pmx")) eqn:LM.
  { intros [= <-]. now left. }
  discriminate.
Qed.

Lemma store_agrees_with_registry_witness :
  detectModelType (lit "model.glb") (Some (glbOf plainJson)) =
    createdModelType VRMRendererFactory \/
  (VRMRendererFactory = VRMRendererFactory /\
   endsWith (lit "model.glb") (lit ".glb") = true /\
   detectVRMExtension (Some (glbOf plainJson)) = false /\
   detectModelType (lit "model.glb") (Some (glbOf plainJson)) = gltf) \/
  (VRMRendererFactory = GLTFRendererFactory /\
   detectVRMExtension (Some (glbOf plainJson)) = true /\
   detectModelType (lit "model.glb") (Some (glbOf plainJson)) = vrm).
Proof.
  apply (store_agrees_with_registry (lit "model.glb") (Some (glbOf plainJson))
           VRMRendererFactory).
  vm_compute. reflexivity.
Defined.

(** X14.  The store lowers the case of the path before it looks at the
    extension and the Live2D and VRM factories do not: for a path whose
    extension is [.vrm] written with a capital, the store says "vrm" and
    the default registry has no factory at all. *)
Theorem capital_vrm_extension_has_no_factory
    (path : jsstring) (fetched : option (list Z)) :
  endsWith (toLowerCase path) (lit ".vrm") = true ->
  endsWith path (lit ".vrm") = false ->
  detectModelType path fetched = vrm /\
  getFactory createDefaultRendererRegistry path = None /\
  canHandle createDefaultRendererRegistry path = false.
Proof.
  intros LV B1.
  assert (HL : endsWith path (lit ".model.json") || endsWith path (lit ".model3.json")
               = false).
  { destruct (_ || _) eqn:HL; [|reflexivity].
    pose proof (lower_json _ HL) as J.
    assert (E : endsWith (toLowerCase path) (lit ".vrm") = false)
      by (apply (endsWith_excl _ _ _ J); vm_compute; reflexivity).
    congruence. }
  assert (B2 : endsWith path (lit ".glb") = false).
  { destruct (endsWith path (lit ".glb")) eqn:B2; [|reflexivity].
    apply (endsWith_toLowerCase _ _ eq_refl) in B2.
    assert (E : endsWith (toLowerCase path) (lit ".vrm") = false)
      by (apply (endsWith_excl _ _ _ B2); vm_compute; reflexivity).
    congruence. }
  assert (LF : endsWith (toLowerCase path) (lit ".fbx") = false)
    by (apply (endsWith_excl _ _ _ LV); vm_compute; reflexivity).
  assert (LD : endsWith (toLowerCase path) (lit ".pmd") = false)
    by (apply (endsWith_excl _ _ _ LV); vm_compute; reflexivity).
  assert (LX : endsWith (toLowerCase path) (lit ".pmx") = false)
    by (apply (endsWith_excl _ _ _ LV); vm_compute; reflexivity).
  unfold detectModelType, canHandle, getFactory, createDefaultRendererRegistry, register.
  cbn [app List.find existsb factoryCanHandle].
  rewrite LV, HL, B1, B2, LF, LD, LX. auto.
Qed.

Lemma capital_vrm_extension_has_no_factory_witness :
  detectModelType upperVrmPath None = vrm /\
  getFactory createDefaultRendererRegistry upperVrmPath = None /\
  canHandle createDefaultRendererRegistry upperVrmPath = false.
Proof.
  apply (capital_vrm_extension_has_no_factory upperVrmPath None); reflexivity.
Defined.

Lemma le32_value (n : Z) :
  0 <= n < 2 ^ 32 ->
  n mod 256 + (n / 2 ^ 8) mod 256 * 2 ^ 8 + (n / 2 ^ 16) mod 256 * 2 ^ 16 +
  (n / 2 ^ 24) mod 256 * 2 ^ 24 = n.
Proof.
  intros Hn.
  change (2 ^ 8) with 256. change (2 ^ 16) with 65536.
  change (2 ^ 24) with 16777216. change (2 ^ 32) with 4294967296 in Hn.
  Z.to_euclidean_division_equations. lia.
Qed.

(** The fields that [detectVRMExtension] reads in a binary glTF file. *)
Lemma glbFile_fields (version total : list Z) (declared : Z) (chunkType rest : list Z) :
  length version = 4%nat -> length total = 4%nat -> length chunkType = 4%nat ->
  0 <= declared < 2 ^ 32 ->
  let buffer := glbFile version total declared chunkType rest in
  getUint32LE buffer 0 = Some 0x46546C67 /\
  getUint32LE buffer 12 = Some declared /\
  getUint32LE buffer 16 = getUint32LE chunkType 0 /\
  viewBytes buffer 20 declared =
    if declared <=? Z.of_nat (length rest)
    then Some (take (Z.to_nat declared) rest) else None.
Proof.
  intros Hv Ht Hc Hd.
  destruct version as [|v0 [|v1 [|v2 [|v3 [|]]]]]; try discriminate.
  destruct total as [|t0 [|t1 [|t2 [|t3 [|]]]]]; try discriminate.
  destruct chunkType as [|c0 [|c1 [|c2 [|c3 [|]]]]]; try discriminate.
  cbv zeta. unfold glbFile, getUint32LE, viewBytes, le32.
  cbn [lit app take drop length]. repeat split.
  - now rewrite le32_value.
  - match goal with
    | |- context [Z.of_nat 20 + declared <=? Z.of_nat ?x] =>
        replace (Z.of_nat 20 + declared <=? Z.of_nat x)
          with (declared <=? Z.of_nat (length rest));
        [reflexivity|];
        destruct (Z.leb_spec declared (Z.of_nat (length rest)));
        destruct (Z.leb_spec (Z.of_nat 20 + declared) (Z.of_nat x));
        try reflexivity; lia
    end.
Qed.

(** X15.  What [detectVRMExtension] looks at in a binary glTF file: the
    bytes of the first chunk, as many as its length field declares, and
    nothing after them; and it answers false, whatever the file contains,
    when the chunk is declared longer than the file or is not of type
    JSON. *)
Theorem detectVRMExtension_reads_json_chunk
    (version total : list Z) (declared : Z) (chunkType rest : list Z) :
  length version = 4%nat -> length total = 4%nat -> length chunkType = 4%nat ->
  Forall (fun b => 0 <= b < 256) chunkType ->
  0 <= declared < 2 ^ 32 ->
  detectVRMExtension (Some (glbFile version total declared chunkType rest)) =
  if bool_decide (chunkType = lit "JSON") && (declared <=? Z.of_nat (length rest))
  then hasVRMMarkers (take (Z.to_nat declared) rest)
  else false.
Proof.
  intros Hv Ht Hc Hb Hd.
  destruct (glbFile_fields version total declared chunkType rest Hv Ht Hc Hd)
    as (Hmagic & Hlen & Hty & Hview).
  unfold detectVRMExtension. rewrite Hmagic, Hlen, Hty, Hview.
  change (0x46546C67 =? 0x46546C67) with true. cbv iota.
  destruct chunkType as [|c0 [|c1 [|c2 [|c3 [|]]]]]; try discriminate.
  unfold getUint32LE. cbn [take drop].
  case_bool_decide as Hjson.
  - injection Hjson as -> -> -> ->. cbn [andb].
    change (_ =? 0x4E4F534A) with true. cbv iota.
    now destruct (declared <=? _).
  - cbn [andb].
    destruct (Z.eqb_spec (c0 + c1 * 2 ^ 8 + c2 * 2 ^ 16 + c3 * 2 ^ 24) 0x4E4F534A)
      as [E|_]; [|reflexivity].
    exfalso. apply Hjson.
    apply Forall_cons in Hb as [H0 Hb]. apply Forall_cons in Hb as [H1 Hb].
    apply Forall_cons in Hb as [H2 Hb]. apply Forall_cons in Hb as [H3 _].
    change (2 ^ 8) with 256 in E. change (2 ^ 16) with 65536 in E.
    change (2 ^ 24) with 16777216 in E.
    assert (c0 = 0x4A /\ c1 = 0x53 /\ c2 = 0x4F /\ c3 = 0x4E) as (-> & -> & -> & ->)
      by lia.
    reflexivity.
Qed.

Lemma detectVRMExtension_reads_json_chunk_witness :
  detectVRMExtension
    (Some (glbFile (le32 2) (le32 0) (Z.of_nat (length vrmJson)) (lit "JSON")
             (vrmJson ++ lit "binary"))) =
  if bool_decide (lit "JSON" = lit "JSON") &&
     (Z.of_nat (length vrmJson) <=? Z.of_nat (length (vrmJson ++ lit "binary")))
  then hasVRMMarkers
         (take (Z.to_nat (Z.of_nat (length vrmJson))) (vrmJson ++ lit "binary"))
  else false.
Proof.
  apply (detectVRMExtension_reads_json_chunk (le32 2) (le32 0)
           (Z.of_nat (length vrmJson)) (lit "JSON") (vrmJson ++ lit "binary"));
    try reflexivity.
  - repeat constructor; vm_compute; discriminate.
  - vm_compute. split; [discriminate | reflexivity].
Defined.

(* ===================================================================== *)
(** ** The expression of an emotion *)
(* ===================================================================== *)

Lemma findIndex_None_lookup {T : Type} (f : T -> bool) (l : list T) :
  findIndex f l = None <-> forall j x, l !! j = Some x -> f x = false.
Proof.
  rewrite findIndex_None, forallb_forall. split.
  - intros H j x Hx. apply negb_true_iff, H, list_elem_of_In.
    now apply list_elem_of_lookup_2 in Hx.
  - intros H x Hx. apply list_elem_of_In, list_elem_of_lookup_1 in Hx as [j Hj].
    apply negb_true_iff. eauto.
Qed.

Lemma findExpression_loop_first (avail candidates : list jsstring) (r : jsstring) :
  findExpression_loop avail (map toLowerCase avail) candidates = Some r <->
  firstMatch candidates avail r.
Proof.
  unfold firstMatch.
  induction candidates as [|c0 rest IH]; cbn [findExpression_loop].
  - split; [discriminate|]. intros (k & i & c & Hk & _). now destruct k.
  - destruct (findIndex _ _) as [i0|] eqn:Ei.
    + apply findIndex_Some in Ei. destruct Ei as (e & He & Hf & Hbefore).
      rewrite list_lookup_fmap in He.
      destruct (avail !! i0) as [n|] eqn:En; [|discriminate].
      cbn in He. injection He as <-. split.
      * intros [= <-]. exists 0%nat, i0, c0. repeat split; auto.
        -- intros j x Hj Hx. apply (Hbefore j); [exact Hj|].
           now rewrite list_lookup_fmap, Hx.
        -- intros k' c j x Hk'. lia.
      * intros (k & i & c & Hk & Hi & Ht & Hfirst & Hearlier).
        destruct k as [|k].
        -- cbn in Hk. injection Hk as <-.
           destruct (lt_eq_lt_dec i i0) as [[L|E]|L].
           ++ specialize (Hbefore i (toLowerCase r) L).
              rewrite list_lookup_fmap, Hi in Hbefore.
              specialize (Hbefore eq_refl). congruence.
           ++ subst i. congruence.
           ++ specialize (Hfirst i0 n L En). congruence.
        -- specialize (Hearlier 0%nat c0 i0 n ltac:(lia) eq_refl En). congruence.
    + rewrite findIndex_None_lookup in Ei.
      assert (Hnone : forall j x, avail !! j = Some x ->
                emotionTest c0 (toLowerCase x) = false).
      { intros j x Hx. apply (Ei j). now rewrite list_lookup_fmap, Hx. }
      rewrite IH. split.
      * intros (k & i & c & Hk & Hi & Ht & Hfirst & Hearlier).
        exists (S k), i, c. repeat split; auto.
        intros [|k'] c' j x Hk' Hc' Hx.
        -- cbn in Hc'. injection Hc' as <-. eauto.
        -- apply (Hearlier k' c' j x); [lia | exact Hc' | exact Hx].
      * intros (k & i & c & Hk & Hi & Ht & Hfirst & Hearlier).
        destruct k as [|k].
        -- cbn in Hk. injection Hk as <-. rewrite (Hnone i r Hi) in Ht. discriminate.
        -- exists k, i, c. repeat split; auto.
           intros k' c' j x Hk' Hc' Hx.
           apply (Hearlier (S k') c' j x); [lia | exact Hc' | exact Hx].
Qed.

(** X16.  [findExpressionForEmotion] goes by the order of the candidates
    first and by the order of the model's expressions second: it returns
    the first expression that passes the test (one of the lower-cased
    name and the candidate contains the other) for the earliest candidate
    for which any expression passes it, and null exactly when no
    expression passes the test for any candidate of the emotion. *)
Theorem findExpressionForEmotion_first_match
    (emotion : Emotion) (availableExpressions : list jsstring) :
  (forall r, findExpressionForEmotion emotion availableExpressions = Some r <->
     firstMatch (EMOTION_EXPRESSION_MAP emotion) availableExpressions r) /\
  (findExpressionForEmotion emotion availableExpressions = None <->
     forall candidate x,
       candidate ∈ EMOTION_EXPRESSION_MAP emotion -> x ∈ availableExpressions ->
       emotionTest candidate (toLowerCase x) = false).
Proof.
  unfold findExpressionForEmotion. split; [intros r; apply findExpression_loop_first|].
  generalize (EMOTION_EXPRESSION_MAP emotion) as candidates.
  induction candidates as [|c0 rest IH]; cbn [findExpression_loop].
  - split; [|reflexivity]. intros _ c x Hc. now apply elem_of_nil in Hc.
  - destruct (findIndex _ _) as [i0|] eqn:Ei.
    + apply findIndex_Some in Ei. destruct Ei as (e & He & Hf & _).
      rewrite list_lookup_fmap in He.
      destruct (availableExpressions !! i0) as [n|] eqn:En; [|discriminate].
      cbn in He. injection He as <-.
      split; [discriminate|]. intros H.
      rewrite (H c0 n) in Hf; [discriminate | apply list_elem_of_here|].
      now apply list_elem_of_lookup_2 in En.
    + rewrite findIndex_None_lookup in Ei. rewrite IH. split.
      * intros H c x Hc Hx. apply elem_of_cons in Hc as [->|Hc]; [|now apply H].
        apply list_elem_of_lookup_1 in Hx as [j Hj]. apply (Ei j).
        now rewrite list_lookup_fmap, Hj.
      * intros H c x Hc Hx. apply H; [now apply list_elem_of_further | exact Hx].
Qed.

(* ===================================================================== *)
(** ** The warning of [setupLipSync] and the adapter *)
(* ===================================================================== *)

Lemma includes_infix (s p : jsstring) :
  includes s p = true <-> exists a b, s = a ++ p ++ b.
Proof.
  induction s as [|x s IH]; cbn [includes].
  - rewrite orb_false_r, startsWith_prefix. split.
    + intros [t Ht]. now exists [], t.
    + intros (a & b & H). symmetry in H.
      apply app_eq_nil in H as [-> H]. apply app_eq_nil in H as [-> ->].
      now exists [].
  - rewrite orb_true_iff, startsWith_prefix, IH. split.
    + intros [[t Ht] | (a & b & ->)]; [now exists [], t | now exists (x :: a), b].
    + intros (a & b & H). destruct a as [|y a].
      * left. now exists b.
      * right. cbn in H. injection H as _ ->. now exists a, b.
Qed.

Lemma toLowerCase_of_fold (s pat : jsstring) :
  map ascii_fold s = pat -> Forall (fun u => u <> 0x130 /\ u <> 0x212A) pat ->
  toLowerCase s = pat.
Proof.
  revert pat. induction s as [|u s IH]; intros pat <- Hpat; [reflexivity|].
  cbn [map] in Hpat. apply Forall_cons in Hpat as [[H1 H2] Hpat].
  change (toLowerCase (u :: s)) with (lower_unit u ++ toLowerCase s).
  rewrite (IH _ eq_refl Hpat). cbn [map]. unfold lower_unit, ascii_fold in *.
  destruct ((0x41 <=? u) && (u <=? 0x5A)); [reflexivity|].
  destruct (Z.eqb_spec u 0x130); [contradiction|].
  destruct (Z.eqb_spec u 0x212A); [contradiction|]. reflexivity.
Qed.

Lemma regex_infix_lower (s pat : jsstring) :
  Forall (fun u => u <> 0x130 /\ u <> 0x212A) pat ->
  includes (map ascii_fold s) pat = true -> includes (toLowerCase s) pat = true.
Proof.
  intros Hpat. rewrite !includes_infix. intros (a & b & H).
  apply map_eq_app in H as (s1 & s23 & -> & <- & H).
  apply map_eq_app in H as (s2 & s3 & -> & H2 & <-).
  exists (toLowerCase s1), (toLowerCase s3). unfold toLowerCase.
  rewrite !flat_map_app. fold (toLowerCase s2).
  now rewrite (toLowerCase_of_fold s2 pat H2 Hpat).
Qed.

Lemma shapeMapOf_is_Some (avail : list jsstring) (p : Phoneme) (e : jsstring) :
  p <> closed -> e ∈ avail -> matchesCandidate p e = true ->
  is_Some (VRM.shapeMapOf avail p).
Proof.
  intros Hp He Hm. unfold VRM.shapeMapOf, VRM.findShape.
  rewrite bool_decide_eq_true_2
    by (destruct p; try congruence;
        repeat first [apply list_elem_of_here | apply list_elem_of_further]).
  destruct (VRM.findShape_loop _ _ _) as [m|] eqn:Ef.
  - destruct (findShape_loop_sound _ _ _ Ef) as (_ & c & Hc & Hinc).
    destruct m as [|u m]; [|eauto].
    cbn in Hinc. apply includes_nil_l in Hinc.
    now apply (vrm_candidates_nonempty p c) in Hc.
  - apply findShape_loop_None in Ef. rewrite forallb_forall in Ef.
    apply list_elem_of_In in He. specialize (Ef e He).
    unfold matchesCandidate in Hm. now rewrite Hm in Ef.
Qed.

(** X17.  The renderer's diagnostic and the adapter it sets up: every
    expression that the diagnostic of [setupLipSync] lists as a mouth
    shape contains the first candidate name of some vowel, and the adapter
    created from the same expressions has a shape for that vowel.  So when
    the adapter has no shape for any vowel the warning is given. *)
Theorem listed_mouth_shape_is_mapped (availableExpressions : list jsstring) :
  (forall e, e ∈ mouthShapes availableExpressions ->
     exists p, p ∈ vowels /\ matchesCandidate p e = true /\
               is_Some (VRM.shapeMapOf availableExpressions p)) /\
  ((forall p, p ∈ vowels -> VRM.shapeMapOf availableExpressions p = None) ->
   warnsNoMouthShape availableExpressions = true).
Proof.
  assert (Hlisted : forall e, e ∈ mouthShapes availableExpressions ->
            exists p, p ∈ vowels /\ matchesCandidate p e = true /\
                      is_Some (VRM.shapeMapOf availableExpressions p)).
  { intros e He. apply list_elem_of_In, filter_In in He as [Hin Hre].
    apply list_elem_of_In in Hin.
    unfold regexTestI in Hre. apply existsb_exists in Hre as (alt & Halt & Hinc).
    assert (Hpat : Forall (fun u => u <> 0x130 /\ u <> 0x212A) alt).
    { cbn in Halt. repeat (destruct Halt as [<- | Halt];
        [repeat constructor; discriminate|]). contradiction. }
    apply (regex_infix_lower _ _ Hpat) in Hinc.
    assert (Hp : exists p, p ∈ vowels /\ p <> closed /\
                           In alt (VRM.VRM_MOUTH_SHAPES p)).
    { cbn in Halt. unfold vowels.
      destruct Halt as [<- | [<- | [<- | [<- | [<- | []]]]]];
        [exists A | exists E | exists I | exists O | exists U];
        (split; [repeat first [apply list_elem_of_here | apply list_elem_of_further]|]);
        (split; [discriminate | now left]). }
    destruct Hp as (p & Hv & Hc & Hcand). exists p.
    assert (Hm : matchesCandidate p e = true).
    { unfold matchesCandidate. apply existsb_exists. now exists alt. }
    split; [exact Hv|]. split; [exact Hm|].
    now apply (shapeMapOf_is_Some _ _ e). }
  split; [exact Hlisted|].
  intros Hnone. unfold warnsNoMouthShape. apply bool_decide_eq_true_2.
  destruct (mouthShapes availableExpressions) as [|e l] eqn:El; [reflexivity|].
  exfalso. destruct (Hlisted e) as (p & Hv & _ & Hs).
  - apply list_elem_of_here.
  - rewrite (Hnone p Hv) in Hs. now destruct Hs.
Qed.

(** The converse fails: the adapter has a shape for A and the warning is
    given all the same. *)
Example warning_with_a_mapped_shape :
  warnsNoMouthShape [lit "Fcl_MTH_A"; lit "Blink"] = true /\
  VRM.shapeMapOf [lit "Fcl_MTH_A"; lit "Blink"] A = Some (lit "Fcl_MTH_A").
Proof. split; reflexivity. Qed.

(* ===================================================================== *)
(** ** The order in which frames are shown *)
(* ===================================================================== *)

Lemma pending_scheduleAnimate (l : Loop) (c : Controller) :
  scheduled c = [] ->
  pending (scheduleAnimate l c) =
  match currentFrame l with Some f => [f] | None => [] end ++ queue c.
Proof.
  intros Hs. unfold pending, heldFrame, scheduleAnimate, requestAnimationFrame.
  cbn. rewrite Hs. reflexivity.
Qed.

Lemma pending_idle (c : Controller) : scheduled c = [] -> pending c = queue c.
Proof. intros Hs. unfold pending, heldFrame. now rewrite Hs. Qed.

(** X18.  Frames are shown in the order of their arrival and none is
    skipped.  In an animation frame of the browser the only mouth shape
    set is that of the first of the frames still to show (the held frame,
    then the queue), and this list either stays as it is or loses its
    first frame, whose mouth shape was set in this very animation
    frame. *)
Theorem frames_leave_in_order (time now : num) (c : Controller) :
  playbackInv c ->
  let c' := runFrame time now c in
  exists new,
    log c' = log c ++ new /\
    (forall k, k ∈ new ->
       isResetCall k = true \/
       exists f w t, target c = Some t /\ head (pending c) = Some f /\
                     k = SetMouthShape t (phoneme f) w) /\
    (pending c' = pending c \/
     exists f w t, pending c = f :: pending c' /\
                   SetMouthShape t (phoneme f) w ∈ new).
Proof.
  intros [(Hn & Hh & Hplay & Hidle) Htgt]. cbv zeta.
  destruct (isPlaying c) eqn:Hp.
  2:{ exists []. unfold runFrame. rewrite (Hidle eq_refl). cbn [fold_left].
      rewrite app_nil_r. split; [reflexivity|]. split.
      - intros k Hk. now apply elem_of_nil in Hk.
      - left. rewrite !pending_idle; auto. }
  destruct (Hplay eq_refl) as (h & l & Ha & Hs).
  destruct (Htgt eq_refl) as [t Ht].
  unfold runFrame. rewrite Hs, Ht. cbn [fold_left snd].
  set (c0 := with_scheduled [] c).
  assert (Hp0 : isPlaying c0 = true) by exact Hp.
  rewrite (animate_playing l time now c0 Hp0). cbv zeta.
  destruct (consumeFrame_fields l time c0) as (Et & Eq & Ep & _ & Es & En & _ & Ea).
  pose proof (consumeFrame_log l time c0) as Hlog.
  set (c1 := snd (consumeFrame l time c0)) in *.
  change (log c0) with (log c) in Hlog. change (queue c0) with (queue c) in *.
  change (target c0) with (target c) in Et. change (scheduled c0) with (@nil (nat * Loop)) in Es.
  assert (Hpend : pending c =
            match currentFrame l with Some f => [f] | None => [] end ++ queue c).
  { unfold pending, heldFrame. now rewrite Hs. }
  assert (Hcalls : consumeCalls l time c0 =
            match currentFrame l with
            | Some f =>
                [SetMouthShape t (phoneme f)
                   (clampWeight
                      (easeInOut (ofZ 1 - (frameTimeRemaining l - (time - lastTime l))
                                          / duration f)
                       * weight f)%num)]
            | None => []
            end).
  { unfold consumeCalls. change (target c0) with (target c). rewrite Ht.
    now destruct (currentFrame l). }
  rewrite Hcalls in Hlog. clear Hcalls.
  assert (Hshown : forall k resets,
            Forall (fun r => isResetCall r = true) resets ->
            k ∈ match currentFrame l with
                | Some f =>
                    [SetMouthShape t (phoneme f)
                       (clampWeight
                          (easeInOut (ofZ 1 - (frameTimeRemaining l - (time - lastTime l))
                                              / duration f)
                           * weight f)%num)]
                | None => []
                end ++ resets ->
            isResetCall k = true \/
            exists f w t0, Some t = Some t0 /\ head (pending c) = Some f /\
                           k = SetMouthShape t0 (phoneme f) w).
  { intros k resets Hres Hk. apply elem_of_app in Hk as [Hk|Hk].
    - right. rewrite Hpend. destruct (currentFrame l) as [f|].
      + apply list_elem_of_singleton in Hk. subst k.
        exists f. eexists. exists t. split; [reflexivity | split; reflexivity].
      + now apply elem_of_nil in Hk.
    - left. rewrite Forall_forall in Hres. now apply Hres. }
  assert (Hdrop : forall rest resets,
            pending c = match currentFrame l with Some f => [f] | None => [] end ++ rest ->
            forall p', p' = rest ->
            p' = pending c \/
            exists f w t0, pending c = f :: p' /\
              SetMouthShape t0 (phoneme f) w ∈
                match currentFrame l with
                | Some f =>
                    [SetMouthShape t (phoneme f)
                       (clampWeight
                          (easeInOut (ofZ 1 - (frameTimeRemaining l - (time - lastTime l))
                                              / duration f)
                           * weight f)%num)]
                | None => []
                end ++ resets).
  { intros rest resets Hc p' ->. rewrite Hc. destruct (currentFrame l) as [f|].
    - right. exists f. eexists. exists t. split; [reflexivity|]. apply list_elem_of_here.
    - now left. }
  destruct (leb (remainingAfter l time) (ofZ 0)).
  - destruct (queue c) as [|g rest] eqn:Hq.
    + destruct (gtb _ _).
      * exists (match currentFrame l with
                | Some f =>
                    [SetMouthShape t (phoneme f)
                       (clampWeight
                          (easeInOut (ofZ 1 - (frameTimeRemaining l - (time - lastTime l))
                                              / duration f)
                           * weight f)%num)]
                | None => []
                end ++ [ResetMouth t]).
        cbn [with_isPlaying log]. rewrite log_resetTargetMouth, Hlog, Et, Ht.
        split; [now rewrite app_assoc|]. split.
        -- intros k. apply Hshown. now repeat constructor.
        -- apply (Hdrop []); [exact Hpend|].
           rewrite pending_idle by (cbn; now rewrite scheduled_resetTargetMouth).
           cbn. unfold resetTargetMouth. rewrite Et, Ht. cbn. now rewrite Eq.
      * eexists. rewrite <- (app_nil_r (log (scheduleAnimate _ _))).
        split.
        { unfold scheduleAnimate, requestAnimationFrame. cbn [log with_animationTimer
            with_nextHandle with_scheduled]. rewrite Hlog, <- app_assoc. reflexivity. }
        split.
        -- intros k. apply Hshown. constructor.
        -- apply (Hdrop []); [exact Hpend|].
           rewrite (pending_scheduleAnimate _ c1 Es). cbn. exact Eq.
    + eexists. rewrite <- (app_nil_r (log (scheduleAnimate _ _))).
      split.
      { unfold scheduleAnimate, requestAnimationFrame. cbn [log with_animationTimer
          with_nextHandle with_scheduled with_queue]. rewrite Hlog, <- app_assoc.
        reflexivity. }
      split.
      * intros k. apply Hshown. constructor.
      * apply (Hdrop (g :: rest)); [exact Hpend|].
        rewrite pending_scheduleAnimate by exact Es. reflexivity.
  - eexists. rewrite <- (app_nil_r (log (scheduleAnimate _ _))).
    split.
    { unfold scheduleAnimate, requestAnimationFrame. cbn [log with_animationTimer
        with_nextHandle with_scheduled]. rewrite Hlog, <- app_assoc. reflexivity. }
    split.
    + intros k. apply Hshown. constructor.
    + left. rewrite (pending_scheduleAnimate _ c1 Es), Hpend. cbn. now rewrite Eq.
Qed.

Lemma frames_leave_in_order_witness :
  let c' := runFrame (ofZ 120) (ofZ 1120) demoHolding in
  exists new,
    log c' = log demoHolding ++ new /\
    (forall k, k ∈ new ->
       isResetCall k = true \/
       exists f w t, target demoHolding = Some t /\
                     head (pending demoHolding) = Some f /\
                     k = SetMouthShape t (phoneme f) w) /\
    (pending c' = pending demoHolding \/
     exists f w t, pending demoHolding = f :: pending c' /\
                   SetMouthShape t (phoneme f) w ∈ new).
Proof.
  apply (frames_leave_in_order (ofZ 120) (ofZ 1120) demoHolding).
  apply (playbackInv_run
           [EvSetTarget (Some 7%nat);
            EvProcessChunk (constRnd 0) (ofZ 1000) (ofZ 0) (lit "a");
            EvFrame (ofZ 16) (ofZ 1016)] initial playbackInv_initial).
Defined.

Lemma pending_enqueueAndPlay (frames : list LipFrame) (perfNow : num) (c : Controller) :
  (isPlaying c = false -> scheduled c = []) ->
  pending (enqueueAndPlay frames perfNow c) = pending c ++ frames.
Proof.
  intros Hidle. unfold enqueueAndPlay. cbn [with_queue isPlaying].
  destruct (isPlaying c) eqn:Hp.
  - unfold pending, heldFrame. cbn. now rewrite app_assoc.
  - unfold startPlayback. cbn [with_queue isPlaying]. rewrite Hp.
    rewrite pending_scheduleAnimate by (cbn; auto).
    cbn. now rewrite pending_idle by auto.
Qed.

(** X19.  New frames join at the tail.  A chunk appends its frames to
    the frames still to show, or nothing when lip sync is disabled or no
    target is registered; [onComplete] appends its closing frame; [stop]
    and [setTarget(null)] leave nothing to show; registering a target or
    changing the configuration keeps the frames as they are. *)
Theorem frames_join_at_the_tail (c : Controller) :
  playbackInv c ->
  (forall rnd now perfNow content,
     pending (processChunk rnd now perfNow content c) =
     pending c ++
     if enabled (config c) && bool_decide (is_Some (target c))
     then textToFrames (config c) rnd content else []) /\
  (forall rnd now perfNow content phonemes,
     pending (processChunkWithPhonemes rnd now perfNow content phonemes c) =
     pending c ++
     if enabled (config c) && bool_decide (is_Some (target c))
     then chunkFrames (config c) rnd content phonemes else []) /\
  pending (onComplete c) = pending c ++ [closingFrame (config c)] /\
  pending (stop c) = [] /\
  pending (setTarget None c) = [] /\
  (forall t, pending (setTarget (Some t) c) = pending c) /\
  (forall p, pending (setConfig p c) = pending c).
Proof.
  intros [Hloop _].
  assert (Hidle : isPlaying c = false -> scheduled c = []) by apply Hloop.
  assert (Hstop : forall c0, loopInv c0 -> pending (stop c0) = []).
  { intros c0 H0. destruct (loopInv_stop c0 H0) as [_ Hs].
    destruct (stop_fields c0) as (_ & Hq & _).
    now rewrite pending_idle, Hq. }
  repeat split.
  - intros rnd now perfNow content. unfold processChunk.
    destruct (enabled (config c)); cbn [negb orb andb]; [|now rewrite app_nil_r].
    case_bool_decide; cbn [negb]; [|now rewrite app_nil_r].
    now rewrite pending_enqueueAndPlay.
  - intros rnd now perfNow content phonemes. unfold processChunkWithPhonemes.
    destruct (enabled (config c)); cbn [negb orb andb]; [|now rewrite app_nil_r].
    case_bool_decide; cbn [negb]; [|now rewrite app_nil_r].
    cbv zeta. now rewrite pending_enqueueAndPlay.
  - unfold onComplete, pending, heldFrame. cbn. now rewrite app_assoc.
  - now apply Hstop.
  - unfold setTarget. apply Hstop. exact Hloop.
Qed.

Lemma frames_join_at_the_tail_witness :
  (forall rnd now perfNow content,
     pending (processChunk rnd now perfNow content demoHolding) =
     pending demoHolding ++
     if enabled (config demoHolding) && bool_decide (is_Some (target demoHolding))
     then textToFrames (config demoHolding) rnd content else []) /\
  (forall rnd now perfNow content phonemes,
     pending (processChunkWithPhonemes rnd now perfNow content phonemes demoHolding) =
     pending demoHolding ++
     if enabled (config demoHolding) && bool_decide (is_Some (target demoHolding))
     then chunkFrames (config demoHolding) rnd content phonemes else []) /\
  pending (onComplete demoHolding) =
    pending demoHolding ++ [closingFrame (config demoHolding)] /\
  pending (stop demoHolding) = [] /\
  pending (setTarget None demoHolding) = [] /\
  (forall t, pending (setTarget (Some t) demoHolding) = pending demoHolding) /\
  (forall p, pending (setConfig p demoHolding) = pending demoHolding).
Proof.
  apply (frames_join_at_the_tail demoHolding).
  apply (playbackInv_run
           [EvSetTarget (Some 7%nat);
            EvProcessChunk (constRnd 0) (ofZ 1000) (ofZ 0) (lit "a");
            EvFrame (ofZ 16) (ofZ 1016)] initial playbackInv_initial).
Defined.

(* ===================================================================== *)
(** ** The morph index of a phoneme *)
(* ===================================================================== *)

Lemma findMorphIndex_loop_first (d : gmap jsstring Z) (candidates : list jsstring) :
  (exists k name,
     candidates !! k = Some name /\
     d !! name = Some (MMD.findMorphIndex_loop d candidates) /\
     forall k' name', (k' < k)%nat -> candidates !! k' = Some name' ->
                      d !! name' = None) \/
  (MMD.findMorphIndex_loop d candidates = -1 /\
   forall name, name ∈ candidates -> d !! name = None).
Proof.
  induction candidates as [|name rest IH]; cbn [MMD.findMorphIndex_loop].
  - right. split; [reflexivity|]. intros name Hn. now apply elem_of_nil in Hn.
  - destruct (d !! name) as [i|] eqn:Ei.
    + left. exists 0%nat, name. repeat split; auto. intros k' name' Hk. lia.
    + destruct IH as [(k & n & Hk & Hd & Hbefore) | [Hm Hall]].
      * left. exists (S k), n. repeat split; auto.
        intros [|k'] name' Hlt; cbn; [now intros [= <-]|].
        apply Hbefore. lia.
      * right. split; [exact Hm|]. intros n Hn.
        apply elem_of_cons in Hn as [->|Hn]; auto.
Qed.

(** X20.  The morph index the MMD adapter uses for a phoneme is the
    dictionary's entry for the first candidate name that the dictionary
    has (the Japanese name before the Latin one); it is -1 for [closed],
    without a dictionary, and when the dictionary has none of the
    candidates. *)
Theorem mmd_morph_index_first_candidate
    (morphTargetDictionary : option (gmap jsstring Z))
    (morphTargetInfluences : option (list num)) (p : Phoneme) :
  let m := MMD.createMMDLipSyncAdapter morphTargetDictionary morphTargetInfluences in
  let d := default ∅ morphTargetDictionary in
  ((exists k name,
      MMD.MMD_MOUTH_SHAPES p !! k = Some name /\
      d !! name = Some (MMD.findMorphIndex m p) /\
      forall k' name', (k' < k)%nat -> MMD.MMD_MOUTH_SHAPES p !! k' = Some name' ->
                       d !! name' = None) \/
   (MMD.findMorphIndex m p = -1 /\
    forall name, name ∈ MMD.MMD_MOUTH_SHAPES p -> d !! name = None)) /\
  MMD.findMorphIndex m closed = -1 /\
  (morphTargetDictionary = None -> MMD.findMorphIndex m p = -1).
Proof.
  cbv zeta. split; [|split].
  - apply findMorphIndex_loop_first.
  - reflexivity.
  - intros ->. unfold MMD.findMorphIndex. cbn [MMD.createMMDLipSyncAdapter MMD.dict default].
    destruct (findMorphIndex_loop_first ∅ (MMD.MMD_MOUTH_SHAPES p))
      as [(k & n & _ & Hd & _) | [Hm _]]; [|exact Hm].
    now rewrite lookup_empty in Hd.
Qed.
